(** * pc-automation-suite: the automation engine of [src/main.js]

    A shallow embedding of the Electron main process: the module-level
    variables, the electron-store contents, Node's timer table and the calls
    made to robotjs and to the renderer are the fields of one [State]; every
    IPC handler, the global key listener and every timer callback is a
    computation in a small state-and-exception monad [JS].

    JavaScript numbers are IEEE binary64 values, modelled by Rocq's primitive
    floats, so [100 / speed] is the very division the program performs
    (including [100 / 0 = Infinity]). *)

From Stdlib Require Import List ZArith String Ascii Bool Lia Floats Uint63.
Import ListNotations.

Set Implicit Arguments.

(** ** JavaScript values used by the engine *)

Definition number := float.

(** An array index (or [Array.prototype.length]) as a JavaScript number. *)
Definition num_of_nat (n : nat) : number :=
  PrimFloat.of_uint63 (Uint63.of_Z (Z.of_nat n)).

(** [v || d] on an optional string: [undefined] and the empty string are falsy. *)
Definition or_string (v : option string) (d : string) : string :=
  match v with
  | Some s => if String.eqb s "" then d else s
  | None => d
  end.

(** [v || d] on an optional number: [undefined], [0], [-0] and [NaN] are falsy. *)
Definition or_number (v : option number) (d : number) : number :=
  match v with
  | Some n => if PrimFloat.is_zero n || PrimFloat.is_nan n then d else n
  | None => d
  end.

(** [v === lit] for an optional string against a string literal. *)
Definition strict_eq (v : option string) (lit : string) : bool :=
  match v with
  | Some s => String.eqb s lit
  | None => false
  end.

(** [String.prototype.toLowerCase] on the ASCII letters (key names are ASCII). *)
Definition lower_ascii (c : ascii) : ascii :=
  let n := nat_of_ascii c in
  if (65 <=? n)%nat && (n <=? 90)%nat then ascii_of_nat (n + 32) else c.

Fixpoint lower (s : string) : string :=
  match s with
  | EmptyString => EmptyString
  | String c r => String (lower_ascii c) (lower r)
  end.

(** ** Data *)

(** One element of a macro: the object read by the playback callback
    ([action.type], [action.x], [action.y], [action.button], [action.key]). *)
Module Action.
Record t := mk {
  type : string;
  x : Z;
  y : Z;
  button : option string;
  key : string
}.
End Action.

(** The object kept under the store key ['settings']; a missing property
    reads as [undefined]. *)
Record Settings := {
  autoClickerSpeed : option number;
  autoClickerHotkey : option string;
  macroRecordHotkey : option string;
  macroPlaybackHotkey : option string;
  macroSpeed : option number;
  hotkeyButton : option string;
  hotkeyMode : option string
}.

(** [{}], the default of [store.get('settings', {})]. *)
Definition empty_settings : Settings :=
  {| autoClickerSpeed := None; autoClickerHotkey := None;
     macroRecordHotkey := None; macroPlaybackHotkey := None;
     macroSpeed := None; hotkeyButton := None; hotkeyMode := None |}.

(** The default object of the ['get-settings'] handler. *)
Definition default_settings : Settings :=
  {| autoClickerSpeed := Some 100%float; autoClickerHotkey := Some "F1"%string;
     macroRecordHotkey := Some "F2"%string; macroPlaybackHotkey := Some "F3"%string;
     macroSpeed := Some 1%float; hotkeyButton := Some "F"%string;
     hotkeyMode := Some "toggle"%string |}.

(** The electron-store: the two keys the program uses. *)
Record Store := {
  settings : option Settings;
  lastMacro : option (list Action.t)
}.

(** The variables captured by one invocation of the ['play-macro'] handler:
    [macro], [speed], [maxPlays] ([None] is [Infinity]) and the mutable
    [playCount]. *)
Module Closure.
Record t := mk {
  macro : list Action.t;
  speed : number;
  maxPlays : option Z;
  playCount : Z
}.
End Closure.

(** The functions handed to [setInterval] and [setTimeout]. *)
Inductive Callback :=
| ClickAtPointer                 (* the arrow function of 'start-auto-clicker' *)
| Click                          (* the arrow function of toggleAutoClicker *)
| DispatchAction (a : Action.t)  (* the arrow function of macro.forEach *)
| PlayMacroOnce (c : nat).       (* playMacroOnce of the c-th 'play-macro' call *)

(** An entry of Node's timer table, as registered: the delay is the argument
    passed to [setTimeout] / [setInterval]. *)
Module Timer.
Record t := mk {
  id : nat;
  repeat : bool;
  delay : number;
  callback : Callback
}.
End Timer.

(** Calls made to robotjs. *)
Inductive RobotCall :=
| getMousePos
| mouseClick (button : string)
| moveMouse (x y : Z)
| keyTap (key : string)
| keyToggle (key : string) (down : string).

(** Messages sent with [mainWindow.webContents.send]. *)
Inductive Message :=
| auto_clicker_stopped
| auto_clicker_started
| macro_recording_toggled
| macro_played (lastMacro : list Action.t) (macroSpeed : option number).

(** ** The state of the main process *)

Record State := {
  store : Store;
  autoClickerInterval : option nat;   (* [None] is undefined / null *)
  macroRecording : list Action.t;
  macroPlaying : bool;
  hotkeyPressed : bool;
  closures : list Closure.t;
  timers : list Timer.t;              (* pending timers, in registration order *)
  nextTimer : nat;
  robot : list RobotCall;             (* robotjs calls so far, oldest first *)
  sent : list Message                 (* renderer messages so far, oldest first *)
}.

Definition set_store (v : Store) (s : State) : State :=
  {| store := v; autoClickerInterval := autoClickerInterval s;
     macroRecording := macroRecording s; macroPlaying := macroPlaying s;
     hotkeyPressed := hotkeyPressed s; closures := closures s;
     timers := timers s; nextTimer := nextTimer s; robot := robot s;
     sent := sent s |}.

Definition set_autoClickerInterval (v : option nat) (s : State) : State :=
  {| store := store s; autoClickerInterval := v;
     macroRecording := macroRecording s; macroPlaying := macroPlaying s;
     hotkeyPressed := hotkeyPressed s; closures := closures s;
     timers := timers s; nextTimer := nextTimer s; robot := robot s;
     sent := sent s |}.

Definition set_macroRecording (v : list Action.t) (s : State) : State :=
  {| store := store s; autoClickerInterval := autoClickerInterval s;
     macroRecording := v; macroPlaying := macroPlaying s;
     hotkeyPressed := hotkeyPressed s; closures := closures s;
     timers := timers s; nextTimer := nextTimer s; robot := robot s;
     sent := sent s |}.

Definition set_macroPlaying (v : bool) (s : State) : State :=
  {| store := store s; autoClickerInterval := autoClickerInterval s;
     macroRecording := macroRecording s; macroPlaying := v;
     hotkeyPressed := hotkeyPressed s; closures := closures s;
     timers := timers s; nextTimer := nextTimer s; robot := robot s;
     sent := sent s |}.

Definition set_hotkeyPressed (v : bool) (s : State) : State :=
  {| store := store s; autoClickerInterval := autoClickerInterval s;
     macroRecording := macroRecording s; macroPlaying := macroPlaying s;
     hotkeyPressed := v; closures := closures s;
     timers := timers s; nextTimer := nextTimer s; robot := robot s;
     sent := sent s |}.

Definition set_closures (v : list Closure.t) (s : State) : State :=
  {| store := store s; autoClickerInterval := autoClickerInterval s;
     macroRecording := macroRecording s; macroPlaying := macroPlaying s;
     hotkeyPressed := hotkeyPressed s; closures := v;
     timers := timers s; nextTimer := nextTimer s; robot := robot s;
     sent := sent s |}.

Definition set_timers (v : list Timer.t) (n : nat) (s : State) : State :=
  {| store := store s; autoClickerInterval := autoClickerInterval s;
     macroRecording := macroRecording s; macroPlaying := macroPlaying s;
     hotkeyPressed := hotkeyPressed s; closures := closures s;
     timers := v; nextTimer := n; robot := robot s;
     sent := sent s |}.

Definition set_robot (v : list RobotCall) (s : State) : State :=
  {| store := store s; autoClickerInterval := autoClickerInterval s;
     macroRecording := macroRecording s; macroPlaying := macroPlaying s;
     hotkeyPressed := hotkeyPressed s; closures := closures s;
     timers := timers s; nextTimer := nextTimer s; robot := v;
     sent := sent s |}.

Definition set_sent (v : list Message) (s : State) : State :=
  {| store := store s; autoClickerInterval := autoClickerInterval s;
     macroRecording := macroRecording s; macroPlaying := macroPlaying s;
     hotkeyPressed := hotkeyPressed s; closures := closures s;
     timers := timers s; nextTimer := nextTimer s; robot := robot s;
     sent := v |}.

(** The process right after start-up, over whatever the store file holds:
    the module-level initialisers of lines 14-17. *)
Definition init (disk : Store) : State :=
  {| store := disk; autoClickerInterval := None; macroRecording := [];
     macroPlaying := false; hotkeyPressed := false; closures := [];
     timers := []; nextTimer := 0; robot := []; sent := [] |}.

(** ** Computations: state passing with exceptions

    A thrown exception keeps the assignments made before it, as in JavaScript. *)

Inductive Completion (A : Type) :=
| Normal (a : A)
| Throw (e : string).
Arguments Throw {A} e.

Definition JS (A : Type) := State -> Completion A * State.

Definition ret {A} (a : A) : JS A := fun s => (Normal a, s).

Definition bind {A B} (m : JS A) (k : A -> JS B) : JS B :=
  fun s =>
    match m s with
    | (Normal a, s') => k a s'
    | (Throw e, s') => (Throw e, s')
    end.

Definition throw {A} (e : string) : JS A := fun s => (Throw e, s).
Definition get : JS State := fun s => (Normal s, s).
Definition modify (f : State -> State) : JS unit := fun s => (Normal tt, f s).

Declare Scope js_scope.
Delimit Scope js_scope with js.
Notation "x <- m ;; k" := (bind m (fun x => k))
  (at level 61, m at next level, right associativity) : js_scope.
Notation "m ;; k" := (bind m (fun _ => k))
  (at level 61, right associativity) : js_scope.
Open Scope js_scope.

Definition when (b : bool) (m : JS unit) : JS unit := if b then m else ret tt.

(** [arr.forEach((v, index) => f v index)], from index [i] on. *)
Fixpoint forEach_from {A} (i : nat) (arr : list A) (f : A -> nat -> JS unit)
  : JS unit :=
  match arr with
  | [] => ret tt
  | v :: rest => f v i ;; forEach_from (S i) rest f
  end.

Definition forEach {A} (arr : list A) (f : A -> nat -> JS unit) : JS unit :=
  forEach_from 0 arr f.

(** ** Collaborators: timers, robotjs, the renderer, the store *)

Definition register (rep : bool) (cb : Callback) (d : number) : JS nat :=
  fun s =>
    let h := nextTimer s in
    (Normal h, set_timers (timers s ++ [Timer.mk h rep d cb]) (S h) s).

Definition setTimeout (cb : Callback) (d : number) : JS unit :=
  _ <- register false cb d ;; ret tt.

Definition setInterval (cb : Callback) (d : number) : JS nat :=
  register true cb d.

Definition cancel (h : nat) (l : list Timer.t) : list Timer.t :=
  filter (fun t => negb (Nat.eqb (Timer.id t) h)) l.

Definition clearInterval (h : nat) : JS unit :=
  modify (fun s => set_timers (cancel h (timers s)) (nextTimer s) s).

Definition robot_call (c : RobotCall) : JS unit :=
  modify (fun s => set_robot (robot s ++ [c]) s).

Definition webContents_send (m : Message) : JS unit :=
  modify (fun s => set_sent (sent s ++ [m]) s).

(** [store.get('settings', {})] *)
Definition store_get_settings : JS Settings :=
  s <- get ;;
  ret (match settings (store s) with Some v => v | None => empty_settings end).

(** [store.get('lastMacro', [])] *)
Definition store_get_lastMacro : JS (list Action.t) :=
  s <- get ;;
  ret (match lastMacro (store s) with Some v => v | None => [] end).

Definition store_set_settings (v : Settings) : JS unit :=
  modify (fun s =>
    set_store {| settings := Some v; lastMacro := lastMacro (store s) |} s).

Definition store_set_lastMacro (v : list Action.t) : JS unit :=
  modify (fun s =>
    set_store {| settings := settings (store s); lastMacro := Some v |} s).

(** [v.toLowerCase()]: a TypeError when [v] is undefined. *)
Definition toLowerCase (v : option string) : JS string :=
  match v with
  | Some s => ret (lower s)
  | None => throw "TypeError"
  end.

(** ** The auto-clicker (lines 150-162, 214-232) *)

Definition stopAutoClicker : JS unit :=
  s <- get ;;
  match autoClickerInterval s with
  | Some h => clearInterval h ;; modify (set_autoClickerInterval None)
  | None => ret tt
  end.

Definition toggleAutoClicker : JS unit :=
  s <- get ;;
  match autoClickerInterval s with
  | Some _ =>
      stopAutoClicker ;;
      webContents_send auto_clicker_stopped
  | None =>
      st <- store_get_settings ;;
      h <- setInterval Click (or_number (autoClickerSpeed st) 100%float) ;;
      modify (set_autoClickerInterval (Some h)) ;;
      webContents_send auto_clicker_started
  end.

(** ['start-auto-clicker'] *)
Definition start_auto_clicker (speed : number) : JS bool :=
  stopAutoClicker ;;
  h <- setInterval ClickAtPointer speed ;;
  modify (set_autoClickerInterval (Some h)) ;;
  ret true.

(** ['stop-auto-clicker'] *)
Definition stop_auto_clicker : JS bool :=
  stopAutoClicker ;; ret true.

(** ** Macro recording (lines 164-173, 234-237) *)

(** ['start-macro-recording'] *)
Definition start_macro_recording : JS bool :=
  modify (set_macroRecording []) ;; ret true.

(** ['stop-macro-recording'] *)
Definition stop_macro_recording : JS (list Action.t) :=
  s <- get ;;
  store_set_lastMacro (macroRecording s) ;;
  ret (macroRecording s).

Definition toggleMacroRecording : JS unit :=
  webContents_send macro_recording_toggled.

(** ** Macro playback (lines 175-211, 239-245) *)

(** The body of the callback given to [setTimeout] inside [macro.forEach]. *)
Definition dispatch_action (action : Action.t) : JS unit :=
  if String.eqb (Action.type action) "click" then
    robot_call (moveMouse (Action.x action) (Action.y action)) ;;
    robot_call (mouseClick (or_string (Action.button action) "left"))
  else if String.eqb (Action.type action) "key" then
    robot_call (keyTap (Action.key action))
  else ret tt.

(** [playCount >= maxPlays], with [None] for [Infinity]. *)
Definition reached (playCount : Z) (maxPlays : option Z) : bool :=
  match maxPlays with
  | Some m => (m <=? playCount)%Z
  | None => false
  end.

(** [playCount++] in the closure of the [c]-th call. *)
Fixpoint incr_playCount (c : nat) (l : list Closure.t) : list Closure.t :=
  match l, c with
  | [], _ => []
  | e :: r, O =>
      Closure.mk (Closure.macro e) (Closure.speed e) (Closure.maxPlays e)
                 (Closure.playCount e + 1) :: r
  | e :: r, S c' => e :: incr_playCount c' r
  end.

(** [playMacroOnce] of the [c]-th ['play-macro'] call (lines 182-202). *)
Definition playMacroOnce (c : nat) : JS unit :=
  s <- get ;;
  match nth_error (closures s) c with
  | None => ret tt   (* no such closure: never registered as a callback *)
  | Some env =>
      if reached (Closure.playCount env) (Closure.maxPlays env)
         || negb (macroPlaying s)
      then modify (set_macroPlaying false)
      else
        forEach (Closure.macro env) (fun action index =>
          setTimeout (DispatchAction action)
            (num_of_nat index * (100 / Closure.speed env))%float) ;;
        modify (fun s => set_closures (incr_playCount c (closures s)) s) ;;
        setTimeout (PlayMacroOnce c)
          (num_of_nat (List.length (Closure.macro env)) * (100 / Closure.speed env)
           + 100)%float
  end.

(** [times === -1 ? Infinity : times] *)
Definition maxPlays_of (times : Z) : option Z :=
  if (times =? -1)%Z then None else Some times.

(** ['play-macro'] *)
Definition play_macro (macro : list Action.t) (speed : number) (times : Z)
  : JS bool :=
  s <- get ;;
  if macroPlaying s then ret false
  else
    modify (set_macroPlaying true) ;;
    s <- get ;;
    let c := List.length (closures s) in
    let maxPlays := maxPlays_of times in
    modify (set_closures (closures s ++ [Closure.mk macro speed maxPlays 0])) ;;
    playMacroOnce c ;;
    ret true.

(** ['stop-macro'] *)
Definition stop_macro : JS bool :=
  modify (set_macroPlaying false) ;; ret true.

Definition playMacro : JS unit :=
  lastMacro <- store_get_lastMacro ;;
  if (0 <? List.length lastMacro)%nat then
    st <- store_get_settings ;;
    webContents_send (macro_played lastMacro (macroSpeed st))
  else ret tt.

(** ** Settings (lines 133-148) *)

(** ['get-settings'] *)
Definition get_settings : JS Settings :=
  s <- get ;;
  ret (match settings (store s) with Some v => v | None => default_settings end).

(** ['save-settings'] *)
Definition save_settings (v : Settings) : JS bool :=
  store_set_settings v ;; ret true.

(** ** The global key listener (lines 86-130) *)

Inductive KeyState := DOWN | UP.

Definition keyListener (name : string) (state : KeyState) : JS unit :=
  match state with
  | DOWN =>
      st <- store_get_settings ;;
      when (String.eqb name (or_string (autoClickerHotkey st) "F1"))
        toggleAutoClicker ;;
      when (String.eqb name (or_string (macroRecordHotkey st) "F2"))
        toggleMacroRecording ;;
      when (String.eqb name (or_string (macroPlaybackHotkey st) "F3"))
        playMacro ;;
      when (String.eqb name (or_string (hotkeyButton st) "F"))
        (if strict_eq (hotkeyMode st) "hold" then
           k <- toLowerCase (hotkeyButton st) ;;
           robot_call (keyToggle k "down")
         else if strict_eq (hotkeyMode st) "toggle" then
           modify (fun s => set_hotkeyPressed (negb (hotkeyPressed s)) s) ;;
           s <- get ;;
           if hotkeyPressed s then
             k <- toLowerCase (hotkeyButton st) ;;
             robot_call (keyToggle k "down")
           else
             k <- toLowerCase (hotkeyButton st) ;;
             robot_call (keyToggle k "up")
         else ret tt)
  | UP =>
      st <- store_get_settings ;;
      when (String.eqb name (or_string (hotkeyButton st) "F")
            && strict_eq (hotkeyMode st) "hold")
        (k <- toLowerCase (hotkeyButton st) ;;
         robot_call (keyToggle k "up"))
  end.

(** ** Timer callbacks *)

Definition run_callback (cb : Callback) : JS unit :=
  match cb with
  | ClickAtPointer => robot_call getMousePos ;; robot_call (mouseClick "left")
  | Click => robot_call (mouseClick "left")
  | DispatchAction a => dispatch_action a
  | PlayMacroOnce c => playMacroOnce c
  end.

Definition find_timer (h : nat) (l : list Timer.t) : option Timer.t :=
  find (fun t => Nat.eqb (Timer.id t) h) l.

(** Node runs the callback of the pending timer [h]; a one-shot timer leaves
    the table first, an interval stays. Firing a timer that is not pending
    does nothing. *)
Definition fire (h : nat) : JS unit :=
  s <- get ;;
  match find_timer h (timers s) with
  | None => ret tt
  | Some t =>
      when (negb (Timer.repeat t)) (clearInterval h) ;;
      run_callback (Timer.callback t)
  end.

(** ** The event loop

    One event is one turn of the loop: an IPC invocation from the renderer, a
    key transition from the listener, or a pending timer coming due. Any
    pending timer may be the next to fire, which covers every order in which
    Node can run them. *)

Inductive Event :=
| Ipc_get_settings
| Ipc_save_settings (v : Settings)
| Ipc_start_auto_clicker (speed : number)
| Ipc_stop_auto_clicker
| Ipc_start_macro_recording
| Ipc_stop_macro_recording
| Ipc_play_macro (macro : list Action.t) (speed : number) (times : Z)
| Ipc_stop_macro
| Key (name : string) (state : KeyState)
| TimerFires (h : nat).

(** What a handler returns to its caller. *)
Inductive Value :=
| VUndefined
| VBool (b : bool)
| VSettings (v : Settings)
| VMacro (m : list Action.t).

Definition returning {A} (f : A -> Value) (m : JS A) : JS Value :=
  a <- m ;; ret (f a).

Definition handle (e : Event) : JS Value :=
  match e with
  | Ipc_get_settings => returning VSettings get_settings
  | Ipc_save_settings v => returning VBool (save_settings v)
  | Ipc_start_auto_clicker speed => returning VBool (start_auto_clicker speed)
  | Ipc_stop_auto_clicker => returning VBool stop_auto_clicker
  | Ipc_start_macro_recording => returning VBool start_macro_recording
  | Ipc_stop_macro_recording => returning VMacro stop_macro_recording
  | Ipc_play_macro macro speed times =>
      returning VBool (play_macro macro speed times)
  | Ipc_stop_macro => returning VBool stop_macro
  | Key name state => returning (fun _ => VUndefined) (keyListener name state)
  | TimerFires h => returning (fun _ => VUndefined) (fire h)
  end.

Definition step (e : Event) (s : State) : State := snd (handle e s).

(** The state after a sequence of events; an exception thrown by one event
    ends that event only. *)
Definition exec (evs : list Event) (s : State) : State :=
  fold_left (fun s e => step e s) evs s.

(** The completion of each event of a run, in order. *)
Fixpoint outcomes (evs : list Event) (s : State) : list (Completion Value) :=
  match evs with
  | [] => []
  | e :: r => fst (handle e s) :: outcomes r (step e s)
  end.

(** * Vocabulary of the properties *)

(** ** Computations *)

(** [P] survives a computation, however it completes. *)
Definition preserves {A} (P : State -> Prop) (m : JS A) : Prop :=
  forall s, P s -> P (snd (m s)).

(** A computation that cannot throw. *)
Definition total {A} (m : JS A) : Prop :=
  forall s, exists a, fst (m s) = Normal a.

(** ** Playback *)

(** The timers [macro.forEach] registers from index [i] and handle [h] on,
    [gap] being [100 / speed]. *)
Fixpoint scheduled (gap : number) (i h : nat) (macro : list Action.t)
  : list Timer.t :=
  match macro with
  | [] => []
  | a :: r =>
      Timer.mk h false (num_of_nat i * gap)%float (DispatchAction a)
      :: scheduled gap (S i) (S h) r
  end.

(** The state in which the first [playMacroOnce] of a call runs. *)
Definition entered (macro : list Action.t) (speed : number) (times : Z)
  (s : State) : State :=
  set_closures
    (closures s ++ [Closure.mk macro speed (maxPlays_of times) 0])
    (set_macroPlaying true s).

(** A timer whose callback is a [playMacroOnce] names one of the first [n]
    closures. *)
Definition known_closure (n : nat) (t : Timer.t) : Prop :=
  match Timer.callback t with
  | PlayMacroOnce c => c < n
  | _ => True
  end.

(** Every pending [playMacroOnce] belongs to a ['play-macro'] call that was
    made. *)
Definition Closed (s : State) : Prop :=
  Forall (known_closure (List.length (closures s))) (timers s).

(** ** The auto-clicker's timer *)

(** The repeating timers: only the auto-clicker calls [setInterval]. *)
Definition intervals (s : State) : list Timer.t :=
  filter Timer.repeat (timers s).

Definition handle_list (h : option nat) : list nat :=
  match h with
  | Some n => [n]
  | None => []
  end.

(** The timer table is well formed (handles are fresh and distinct) and its
    repeating timers are exactly the one [autoClickerInterval] names, if any. *)
Definition Inv (s : State) : Prop :=
  Forall (fun t => Timer.id t < nextTimer s) (timers s)
  /\ NoDup (map Timer.id (timers s))
  /\ map Timer.id (intervals s) = handle_list (autoClickerInterval s).

(** The state [stopAutoClicker] leaves. *)
Definition stopped (s : State) : State :=
  match autoClickerInterval s with
  | Some h =>
      set_autoClickerInterval None
        (set_timers (cancel h (timers s)) (nextTimer s) s)
  | None => s
  end.

(** The state after [autoClickerInterval = setInterval(cb, d)]. *)
Definition started (cb : Callback) (d : number) (s : State) : State :=
  set_autoClickerInterval (Some (nextTimer s))
    (set_timers (timers s ++ [Timer.mk (nextTimer s) true d cb])
                (S (nextTimer s)) s).

(** ** The key listener *)

(** A branch of the listener that returns normally and leaves the store, the
    robotjs log and [hotkeyPressed] alone. *)
Definition quiet (m : JS unit) : Prop :=
  forall s, exists s',
    m s = (Normal tt, s')
    /\ store s' = store s
    /\ robot s' = robot s
    /\ hotkeyPressed s' = hotkeyPressed s.

(** ** Sample data and runs *)

Definition empty_disk : Store := {| settings := None; lastMacro := None |}.

(** The process right after start-up on an empty store. *)
Definition idle : State := init empty_disk.

Definition click_10_20 : Action.t := Action.mk "click" 10 20 None "".
Definition tap_q : Action.t := Action.mk "key" 0 0 None "q".

(** An endless run is started, its first action fires, it is stopped and a
    second endless run is started before the first run's next repetition
    (timer 1, due 200 ms after the first call) comes due; the second run's
    first action fires. *)
Definition stop_then_restart : list Event :=
  [ Ipc_play_macro [click_10_20] 1%float (-1);
    TimerFires 0;
    Ipc_stop_macro;
    Ipc_play_macro [tap_q] 1%float (-1);
    TimerFires 2 ].

(** The same run carried on: the first run's repetition timer comes due,
    then its action, then the second run's repetition timer and action. *)
Definition two_runs : list Event :=
  stop_then_restart ++ [TimerFires 1; TimerFires 4; TimerFires 3; TimerFires 6].

(** Keys pressed between a start and a stop of recording. *)
Definition record_session : list Event :=
  [ Ipc_start_macro_recording;
    Key "F2" DOWN; Key "F2" UP;
    Key "q" DOWN; Key "q" UP;
    Key "F2" DOWN; Key "F2" UP;
    Ipc_stop_macro_recording ].

(** Settings binding the hotkey button to [F] in the given mode. *)
Definition bound_F (mode : string) : State :=
  init {| settings :=
            Some {| autoClickerSpeed := Some 100%float;
                    autoClickerHotkey := Some "F1"%string;
                    macroRecordHotkey := Some "F2"%string;
                    macroPlaybackHotkey := Some "F3"%string;
                    macroSpeed := Some 1%float;
                    hotkeyButton := Some "F"%string;
                    hotkeyMode := Some mode |};
          lastMacro := None |}.

(** * The recorder of spec 4.3

    main.js has the in-progress sequence ([macroRecording]) and the start
    and stop handlers, but neither an operation that records an action nor
    a flag saying that recording is on (line 166: actual recording would
    need an event capture that is not there). The recorder below puts the
    spec's flag and the spec's [recordAction] on top of the program's own
    handlers. *)










(** * The application shell (lines 8-11, 19-84, 247-272)

    The window, the tray and the application events. What the handlers ask
    of Electron and of the key listener is logged as calls, in order. *)

Inductive ShellCall :=
| new_BrowserWindow
| mainWindow_loadFile
| webContents_openDevTools
| new_Tray
| tray_setToolTip
| tray_setContextMenu
| new_GlobalKeyboardListener
| mainWindow_show
| mainWindow_hide
| mainWindow_focus
| event_preventDefault
| app_quit
| keyListener_kill.

Record App := {
  engine : State;
  isAppQuitting : bool;
  keyListener_set : bool;      (* [keyListener] has been assigned *)
  shell : list ShellCall       (* calls so far, oldest first *)
}.

(** The process as the module is loaded (lines 7-17). *)
Definition app_init (disk : Store) : App :=
  {| engine := init disk; isAppQuitting := false; keyListener_set := false;
     shell := [] |}.

Definition call (cs : list ShellCall) (a : App) : App :=
  {| engine := engine a; isAppQuitting := isAppQuitting a;
     keyListener_set := keyListener_set a; shell := shell a ++ cs |}.

Definition set_isAppQuitting (v : bool) (a : App) : App :=
  {| engine := engine a; isAppQuitting := v;
     keyListener_set := keyListener_set a; shell := shell a |}.

Definition set_keyListener (a : App) : App :=
  {| engine := engine a; isAppQuitting := isAppQuitting a;
     keyListener_set := true; shell := shell a |}.

Definition set_engine (s : State) (a : App) : App :=
  {| engine := s; isAppQuitting := isAppQuitting a;
     keyListener_set := keyListener_set a; shell := shell a |}.

(** [createWindow()]; [dev] is [process.argv.includes('--dev')]. *)
Definition createWindow (dev : bool) (a : App) : App :=
  call (new_BrowserWindow :: mainWindow_loadFile
        :: if dev then [webContents_openDevTools] else []) a.

Definition createTray (a : App) : App :=
  call [new_Tray; tray_setToolTip; tray_setContextMenu] a.

Definition setupGlobalKeyListener (a : App) : App :=
  set_keyListener (call [new_GlobalKeyboardListener] a).

(** The ['close'] handler of the window (lines 43-48). *)
Definition window_close (a : App) : App :=
  if negb (isAppQuitting a)
  then call [event_preventDefault; mainWindow_hide] a
  else a.

(** The tray's 'Show App' item and its double click (lines 63-66, 80-83). *)
Definition tray_show (a : App) : App :=
  call [mainWindow_show; mainWindow_focus] a.

(** The tray's 'Quit' item (lines 70-73). *)
Definition tray_quit (a : App) : App :=
  call [app_quit] (set_isAppQuitting true a).

(** The ['activate'] handler; [windows] is
    [BrowserWindow.getAllWindows().length]. *)
Definition app_activate (dev : bool) (windows : nat) (a : App) : App :=
  if Nat.eqb windows 0 then createWindow dev a else call [mainWindow_show] a.

(** The ['before-quit'] handler (lines 266-272). *)
Definition before_quit (a : App) : App :=
  let a1 := set_isAppQuitting true a in
  let a2 := set_engine (snd (stopAutoClicker (engine a1))) a1 in
  if keyListener_set a2 then call [keyListener_kill] a2 else a2.

Inductive AppEvent :=
| Engine (e : Event)
| WhenReady (dev : bool)
| ReadyToShow
| WindowClose
| TrayShowApp
| TrayDoubleClick
| TrayQuit
| Activate (dev : bool) (windows : nat)
| WindowAllClosed
| BeforeQuit.

Definition app_step (e : AppEvent) (a : App) : App :=
  match e with
  | Engine e => set_engine (step e (engine a)) a
  | WhenReady dev => setupGlobalKeyListener (createTray (createWindow dev a))
  | ReadyToShow => call [mainWindow_show] a
  | WindowClose => window_close a
  | TrayShowApp => tray_show a
  | TrayDoubleClick => tray_show a
  | TrayQuit => tray_quit a
  | Activate dev windows => app_activate dev windows a
  | WindowAllClosed => a
  | BeforeQuit => before_quit a
  end.

Definition app_exec (evs : list AppEvent) (a : App) : App :=
  fold_left (fun a e => app_step e a) evs a.

(** * Vocabulary of the further properties *)

(** The pending one-shot timers: those of macro playback. *)
Definition one_shots (s : State) : list Timer.t :=
  filter (fun t => negb (Timer.repeat t)) (timers s).

(** The timer is a pending [playMacroOnce] of the [c]-th call. *)
Definition is_repetition (c : nat) (t : Timer.t) : bool :=
  match Timer.callback t with
  | PlayMacroOnce c' => Nat.eqb c' c
  | _ => false
  end.

(** The handle of the pending repetition of the [c]-th call, if any. *)
Definition repetition_timer (c : nat) (s : State) : option nat :=
  option_map Timer.id (find (is_repetition c) (timers s)).

(** The pending repetition of the [c]-th call comes due. *)
Definition fire_repetition (c : nat) (s : State) : State :=
  match repetition_timer c s with
  | Some h => step (TimerFires h) s
  | None => s
  end.

(** The play count of the [c]-th call's closure. *)
Definition playCount_of (c : nat) (s : State) : option Z :=
  option_map Closure.playCount (nth_error (closures s) c).

Definition is_play_macro (e : Event) : bool :=
  match e with
  | Ipc_play_macro _ _ _ => true
  | _ => false
  end.

(** The events that come from the renderer. *)
Definition is_ipc (e : Event) : bool :=
  match e with
  | Key _ _ | TimerFires _ => false
  | _ => true
  end.

(** Repeating timers only ever click. *)
Definition Clicking (s : State) : Prop :=
  Forall (fun t => Timer.repeat t = true ->
                   Timer.callback t = Click
                   \/ Timer.callback t = ClickAtPointer)
         (timers s).

Definition is_save_settings (e : Event) : bool :=
  match e with
  | Ipc_save_settings _ => true
  | _ => false
  end.

(** The [c]-th call is between repetitions: the flag is set, its closure has
    begun [k] repetitions, its next [playMacroOnce] is the newest pending
    timer, [actions] action timers have been registered since [s0] and
    none has fired. *)
Definition Running (c : nat) (macro : list Action.t) (speed : number)
  (maxPlays : option Z) (k : Z) (actions : nat) (s0 st : State) : Prop :=
  macroPlaying st = true
  /\ nth_error (closures st) c = Some (Closure.mk macro speed maxPlays k)
  /\ robot st = robot s0
  /\ exists T h d,
       timers st = T ++ [Timer.mk h false d (PlayMacroOnce c)]
       /\ nextTimer st = S h
       /\ Forall (fun t => Timer.id t < h) T
       /\ Forall (fun t => is_repetition c t = false) T
       /\ List.length T = List.length (timers s0) + actions.

(** Since [s0] no repetition has begun: the flag is clear, the closures are
    those of [s0], and every pending playback timer was pending in [s0]. *)
Definition Quiescent (s0 st : State) : Prop :=
  macroPlaying st = false
  /\ closures st = closures s0
  /\ incl (one_shots st) (one_shots s0).

(** Nothing is being recorded and the stored macro is the empty one. *)
Definition Unrecorded (st : State) : Prop :=
  macroRecording st = [] /\ lastMacro (store st) = Some [].

(** Stored settings without a [hotkeyButton], in the given mode. *)
Definition unbound (mode : string) : State :=
  init {| settings :=
            Some {| autoClickerSpeed := None;
                    autoClickerHotkey := None;
                    macroRecordHotkey := None;
                    macroPlaybackHotkey := None;
                    macroSpeed := None;
                    hotkeyButton := None;
                    hotkeyMode := Some mode |};
          lastMacro := None |}.

(** A disk whose settings give the auto-clicker a speed of [0]. *)
Definition zero_speed_disk : Store :=
  {| settings :=
       Some {| autoClickerSpeed := Some 0%float;
               autoClickerHotkey := None;
               macroRecordHotkey := None;
               macroPlaybackHotkey := None;
               macroSpeed := None;
               hotkeyButton := None;
               hotkeyMode := None |};
     lastMacro := None |}.

(** The handle of [t] has been given out and names no timer but [t]. *)
Definition Owns (t : Timer.t) (s : State) : Prop :=
  Timer.id t < nextTimer s
  /\ forall u, In u (timers s) -> Timer.id u = Timer.id t -> u = t.

(** The event sets [isAppQuitting]. *)
Definition quits (e : AppEvent) : bool :=
  match e with
  | TrayQuit | BeforeQuit => true
  | _ => false
  end.

(** * Properties *)

(** ** Reasoning about computations *)

Lemma preserves_ret {A} (P : State -> Prop) (a : A) : preserves P (ret a).
Proof. intros s H; exact H. Qed.

Lemma preserves_throw {A} (P : State -> Prop) e : preserves P (@throw A e).
Proof. intros s H; exact H. Qed.

Lemma preserves_get (P : State -> Prop) : preserves P get.
Proof. intros s H; exact H. Qed.

Lemma preserves_bind {A B} (P : State -> Prop) (m : JS A) (k : A -> JS B) :
  preserves P m -> (forall a, preserves P (k a)) -> preserves P (bind m k).
Proof.
  intros Hm Hk s Hs. unfold bind.
  specialize (Hm s Hs). destruct (m s) as [[a|e] s']; simpl in *.
  - apply Hk, Hm.
  - exact Hm.
Qed.

Lemma preserves_modify (P : State -> Prop) f :
  (forall s, P s -> P (f s)) -> preserves P (modify f).
Proof. intros H s Hs; apply H, Hs. Qed.

Lemma preserves_when (P : State -> Prop) b m :
  preserves P m -> preserves P (when b m).
Proof. intros H; destruct b; [exact H | apply preserves_ret]. Qed.

Lemma preserves_forEach_from {A} (P : State -> Prop) (f : A -> nat -> JS unit) :
  (forall a i, preserves P (f a i)) ->
  forall arr i, preserves P (forEach_from i arr f).
Proof.
  intros Hf arr; induction arr as [|a r IH]; intros i; simpl.
  - apply preserves_ret.
  - apply preserves_bind; [apply Hf | intros _; apply IH].
Qed.

Lemma preserves_register (P : State -> Prop) rep cb d :
  (forall s, P s ->
     P (set_timers (timers s ++ [Timer.mk (nextTimer s) rep d cb])
                   (S (nextTimer s)) s)) ->
  preserves P (register rep cb d).
Proof. intros H s Hs. apply H, Hs. Qed.

Lemma total_ret {A} (a : A) : total (ret a).
Proof. intros s; exists a; reflexivity. Qed.

Lemma total_modify f : total (modify f).
Proof. intros s; exists tt; reflexivity. Qed.

Lemma total_bind {A B} (m : JS A) (k : A -> JS B) :
  total m -> (forall a, total (k a)) -> total (bind m k).
Proof.
  intros Hm Hk s. unfold bind. destruct (Hm s) as [a Ha].
  destruct (m s) as [[a'|e] s']; simpl in Ha; [|discriminate].
  apply Hk.
Qed.

Lemma total_forEach_from {A} (f : A -> nat -> JS unit) :
  (forall a i, total (f a i)) -> forall arr i, total (forEach_from i arr f).
Proof.
  intros Hf arr; induction arr as [|a r IH]; intros i; simpl.
  - apply total_ret.
  - apply total_bind; [apply Hf | intros _; apply IH].
Qed.

Lemma total_setTimeout cb d : total (setTimeout cb d).
Proof. intros s; exists tt; reflexivity. Qed.

Lemma total_playMacroOnce c : total (playMacroOnce c).
Proof.
  intros s. unfold playMacroOnce, bind at 1, get.
  destruct (nth_error (closures s) c) as [env|]; [|exists tt; reflexivity].
  destruct (reached _ _ || negb (macroPlaying s)); [exists tt; reflexivity|].
  apply total_bind; [apply total_forEach_from; intros; apply total_setTimeout|].
  intros _. apply total_bind; [apply total_modify|].
  intros _. apply total_setTimeout.
Qed.

(** ** The timers registered by one repetition *)

Lemma scheduled_length gap macro : forall i h,
  List.length (scheduled gap i h macro) = List.length macro.
Proof.
  induction macro as [|a r IH]; intros i h; simpl; [reflexivity|].
  now rewrite IH.
Qed.

Lemma scheduled_nth gap macro : forall k i h a,
  nth_error macro k = Some a ->
  nth_error (scheduled gap i h macro) k =
  Some (Timer.mk (h + k) false (num_of_nat (i + k) * gap)%float
                 (DispatchAction a)).
Proof.
  induction macro as [|b r IH]; intros [|k] i h a Hk; simpl in *;
    try discriminate.
  - injection Hk as ->. now rewrite !Nat.add_0_r.
  - rewrite (IH k (S i) (S h) a Hk).
    now rewrite <- !plus_n_Sm.
Qed.

Lemma forEach_setTimeout gap macro : forall i s,
  forEach_from i macro (fun action index =>
    setTimeout (DispatchAction action) (num_of_nat index * gap)%float) s =
  (Normal tt,
   set_timers (timers s ++ scheduled gap i (nextTimer s) macro)
              (nextTimer s + List.length macro) s).
Proof.
  induction macro as [|a r IH]; intros i s; simpl.
  - unfold ret. rewrite app_nil_r, Nat.add_0_r. now destruct s.
  - unfold bind at 1, setTimeout, bind, register, ret. rewrite IH.
    simpl. rewrite <- app_assoc, <- plus_n_Sm. reflexivity.
Qed.

(** One repetition that passes the guard of line 183, in closed form. *)
Lemma playMacroOnce_repetition s c env :
  nth_error (closures s) c = Some env ->
  macroPlaying s = true ->
  reached (Closure.playCount env) (Closure.maxPlays env) = false ->
  let gap := (100 / Closure.speed env)%float in
  let n := List.length (Closure.macro env) in
  playMacroOnce c s =
  (Normal tt,
   set_timers
     (timers s ++ scheduled gap 0 (nextTimer s) (Closure.macro env)
      ++ [Timer.mk (nextTimer s + n) false (num_of_nat n * gap + 100)%float
                   (PlayMacroOnce c)])
     (S (nextTimer s + n))
     (set_closures (incr_playCount c (closures s)) s)).
Proof.
  intros Hc Hp Hr gap n. unfold playMacroOnce, bind at 1, get.
  rewrite Hc, Hp, Hr. cbn [orb negb].
  unfold forEach, bind at 1. cbv beta. rewrite forEach_setTimeout.
  unfold bind, modify, setTimeout, bind, register, ret. simpl.
  rewrite <- app_assoc. reflexivity.
Qed.

(** When the guard fails the repetition only clears the flag. *)
Lemma playMacroOnce_terminates s c env :
  nth_error (closures s) c = Some env ->
  reached (Closure.playCount env) (Closure.maxPlays env)
  || negb (macroPlaying s) = true ->
  playMacroOnce c s = (Normal tt, set_macroPlaying false s).
Proof.
  intros Hc Hg. unfold playMacroOnce, bind, get. now rewrite Hc, Hg.
Qed.

(** C1: in a repetition that begins (the guard of line 183 passes), the
    action at index [i] is given to [setTimeout] with delay
    [i * (100 / speed)], and [playMacroOnce] itself with delay
    [macro.length * (100 / speed) + 100]; both delays count from the
    repetition's own start, since every registration happens inside that one
    call. Nothing else is registered and the pending timers stay as they
    were. This holds for every macro and every speed, positive ones
    included. *)
Theorem playMacroOnce_delays (s : State) (c : nat) (env : Closure.t) :
  nth_error (closures s) c = Some env ->
  macroPlaying s = true ->
  reached (Closure.playCount env) (Closure.maxPlays env) = false ->
  let s' := snd (playMacroOnce c s) in
  let gap := (100 / Closure.speed env)%float in
  let n := List.length (Closure.macro env) in
  let old := List.length (timers s) in
  (forall i action,
     nth_error (Closure.macro env) i = Some action ->
     nth_error (timers s') (old + i) =
     Some (Timer.mk (nextTimer s + i) false (num_of_nat i * gap)%float
                    (DispatchAction action)))
  /\ nth_error (timers s') (old + n) =
     Some (Timer.mk (nextTimer s + n) false (num_of_nat n * gap + 100)%float
                    (PlayMacroOnce c))
  /\ List.length (timers s') = old + n + 1
  /\ firstn old (timers s') = timers s.
Proof.
  intros Hc Hp Hr s' gap n old. subst s'.
  rewrite (playMacroOnce_repetition s c Hc Hp Hr). simpl.
  fold gap. fold n.
  repeat split.
  - intros i action Hi.
    assert (Hlt : i < n) by (apply nth_error_Some; rewrite Hi; discriminate).
    rewrite nth_error_app2 by (unfold old; lia).
    replace (old + i - List.length (timers s)) with i by (unfold old; lia).
    rewrite nth_error_app1 by (rewrite scheduled_length; exact Hlt).
    rewrite (scheduled_nth gap _ _ 0 (nextTimer s) Hi). reflexivity.
  - rewrite nth_error_app2 by (unfold old; lia).
    replace (old + n - List.length (timers s)) with n by (unfold old; lia).
    rewrite nth_error_app2 by (rewrite scheduled_length; unfold n; lia).
    rewrite scheduled_length. fold n. rewrite Nat.sub_diag. reflexivity.
  - rewrite !length_app, scheduled_length. simpl. fold n. unfold old. lia.
  - unfold old. rewrite firstn_app, Nat.sub_diag, firstn_all. simpl.
    apply app_nil_r.
Qed.

(** ** The ['play-macro'] handler *)

Lemma play_macro_playing s macro speed times :
  macroPlaying s = true ->
  play_macro macro speed times s = (Normal false, s).
Proof. intros H. unfold play_macro, bind, get. now rewrite H. Qed.

Lemma play_macro_idle s macro speed times :
  macroPlaying s = false ->
  play_macro macro speed times s =
  (Normal true,
   snd (playMacroOnce (List.length (closures s))
                      (entered macro speed times s))).
Proof.
  intros H. unfold play_macro, bind at 1, get. rewrite H.
  unfold bind at 1, modify. unfold bind at 1, get.
  unfold bind at 1, modify. simpl closures. unfold bind at 1.
  fold (entered macro speed times s).
  destruct (total_playMacroOnce (List.length (closures s))
              (entered macro speed times s)) as [[] Ht].
  destruct (playMacroOnce _ _) as [[[]|e] s2]; simpl in Ht;
    [reflexivity | discriminate].
Qed.

Lemma entered_closure s macro speed times :
  nth_error (closures (entered macro speed times s))
            (List.length (closures s)) =
  Some (Closure.mk macro speed (maxPlays_of times) 0).
Proof.
  simpl. rewrite nth_error_app2 by lia. now rewrite Nat.sub_diag.
Qed.

(** C2: while [macroPlaying] is set, ['play-macro'] returns [false] and the
    whole state (the flag, every closure's play count, every pending timer)
    is the one it found; while it is clear, the handler returns [true]. *)
Theorem play_macro_rejects_second_call
  (s : State) (macro : list Action.t) (speed : number) (times : Z) :
  (macroPlaying s = true ->
   play_macro macro speed times s = (Normal false, s))
  /\ (macroPlaying s = false ->
      fst (play_macro macro speed times s) = Normal true).
Proof.
  split; intros H.
  - apply play_macro_playing, H.
  - now rewrite play_macro_idle.
Qed.

(** C9: from an idle player, ['play-macro'] with [times = 0] returns [true];
    its only [playMacroOnce] finds [playCount >= maxPlays] at once, so no
    timer is registered, robotjs is not called, and [macroPlaying] is
    [false] again on return. *)
Theorem play_macro_zero_times
  (s : State) (macro : list Action.t) (speed : number) :
  macroPlaying s = false ->
  let r := play_macro macro speed 0 s in
  fst r = Normal true
  /\ macroPlaying (snd r) = false
  /\ timers (snd r) = timers s
  /\ nextTimer (snd r) = nextTimer s
  /\ robot (snd r) = robot s.
Proof.
  intros H r. subst r. rewrite play_macro_idle by exact H.
  rewrite (playMacroOnce_terminates _ _ (entered_closure s macro speed 0))
    by reflexivity.
  repeat split.
Qed.

(** ** The auto-clicker's timer *)

Lemma stopAutoClicker_eq s : stopAutoClicker s = (Normal tt, stopped s).
Proof.
  unfold stopAutoClicker, stopped, bind, get.
  destruct (autoClickerInterval s); reflexivity.
Qed.

Lemma start_auto_clicker_eq d s :
  start_auto_clicker d s = (Normal true, started ClickAtPointer d (stopped s)).
Proof.
  unfold start_auto_clicker, bind at 1. rewrite stopAutoClicker_eq.
  reflexivity.
Qed.

Lemma stop_auto_clicker_eq s : stop_auto_clicker s = (Normal true, stopped s).
Proof.
  unfold stop_auto_clicker, bind. now rewrite stopAutoClicker_eq.
Qed.

Lemma toggleAutoClicker_eq s :
  toggleAutoClicker s =
  (Normal tt,
   match autoClickerInterval s with
   | Some _ =>
       set_sent (sent s ++ [auto_clicker_stopped]) (stopped s)
   | None =>
       let st := match settings (store s) with
                 | Some v => v
                 | None => empty_settings
                 end in
       set_sent (sent s ++ [auto_clicker_started])
         (started Click (or_number (autoClickerSpeed st) 100%float) s)
   end).
Proof.
  unfold toggleAutoClicker, bind at 1, get.
  destruct (autoClickerInterval s) as [h|] eqn:E.
  - unfold bind. rewrite stopAutoClicker_eq. unfold stopped. rewrite E.
    reflexivity.
  - reflexivity.
Qed.

Lemma filter_cancel_comm h l :
  filter Timer.repeat (cancel h l) = cancel h (filter Timer.repeat l).
Proof.
  unfold cancel. induction l as [|t l IH]; simpl; [reflexivity|].
  destruct (Nat.eqb (Timer.id t) h) eqn:Ei, (Timer.repeat t) eqn:Er; simpl;
    rewrite ?Ei, ?Er, IH; reflexivity.
Qed.

Lemma cancel_only h l : map Timer.id l = [h] -> cancel h l = [].
Proof.
  destruct l as [|t [|t' l]]; simpl; try discriminate.
  intros [= E]. now rewrite E, Nat.eqb_refl.
Qed.

Lemma cancel_In h l t : In t (cancel h l) -> In t l.
Proof. unfold cancel. intros H. apply filter_In in H. tauto. Qed.

Lemma cancel_NoDup h l :
  NoDup (map Timer.id l) -> NoDup (map Timer.id (cancel h l)).
Proof.
  induction l as [|t l IH]; simpl; intros H; [constructor|].
  inversion H as [|? ? Hn Hd]; subst.
  destruct (negb (Nat.eqb (Timer.id t) h)); simpl; [|apply IH, Hd].
  constructor; [|apply IH, Hd].
  intros Hin. apply Hn. apply in_map_iff in Hin as [t' [Ht' Hin]].
  apply in_map_iff. exists t'. split; [exact Ht' | eapply cancel_In, Hin].
Qed.

Lemma cancel_Forall (P : Timer.t -> Prop) h l :
  Forall P l -> Forall P (cancel h l).
Proof.
  intros H. apply Forall_forall. intros t Ht.
  eapply Forall_forall in H; [exact H | eapply cancel_In, Ht].
Qed.

Lemma find_timer_In h l t :
  find_timer h l = Some t -> In t l /\ Timer.id t = h.
Proof.
  unfold find_timer. intros H. apply find_some in H as [Hin He].
  split; [exact Hin | now apply Nat.eqb_eq].
Qed.

Lemma filter_all {A} (p : A -> bool) l :
  (forall x, In x l -> p x = true) -> filter p l = l.
Proof.
  induction l as [|a l IH]; simpl; intros H; [reflexivity|].
  rewrite (H a) by now left. f_equal. apply IH. intros x Hx. apply H.
  now right.
Qed.

(** Distinct handles: a handle names one timer. *)
Lemma handle_unique l : forall t u,
  NoDup (map Timer.id l) -> In t l -> In u l ->
  Timer.id t = Timer.id u -> t = u.
Proof.
  induction l as [|v l IH]; intros t u Hd Ht Hu E; [destruct Ht|].
  simpl in Hd. inversion Hd as [|? ? Hn Hd']; subst.
  destruct Ht as [->|Ht], Hu as [->|Hu]; try reflexivity.
  - exfalso. apply Hn. rewrite E. now apply in_map.
  - exfalso. apply Hn. rewrite <- E. now apply in_map.
  - now apply IH.
Qed.

(** Cancelling the handle of a one-shot timer leaves the repeating ones. *)
Lemma cancel_one_shot h l t :
  NoDup (map Timer.id l) ->
  In t l -> Timer.id t = h -> Timer.repeat t = false ->
  filter Timer.repeat (cancel h l) = filter Timer.repeat l.
Proof.
  intros Hd Hin Hid Hr. rewrite filter_cancel_comm. unfold cancel.
  apply filter_all. intros u Hu. apply filter_In in Hu as [Hu Hru].
  apply negb_true_iff, Nat.eqb_neq. intros E.
  assert (u = t) by (apply (handle_unique l); congruence).
  congruence.
Qed.

Lemma Inv_init disk : Inv (init disk).
Proof. repeat split; simpl; constructor. Qed.

Lemma Inv_idle_intervals s :
  Inv s -> autoClickerInterval s = None -> intervals s = [].
Proof.
  intros (_ & _ & H) E. rewrite E in H. simpl in H.
  now apply map_eq_nil in H.
Qed.

Lemma Inv_stopped s :
  Inv s ->
  Inv (stopped s) /\ intervals (stopped s) = []
  /\ autoClickerInterval (stopped s) = None.
Proof.
  intros HI. unfold stopped.
  destruct (autoClickerInterval s) as [h|] eqn:E.
  - destruct HI as (Hf & Hd & Hi). rewrite E in Hi. simpl in Hi.
    assert (Hnil : filter Timer.repeat (cancel h (timers s)) = []).
    { rewrite filter_cancel_comm. now apply cancel_only. }
    repeat split; simpl.
    + now apply cancel_Forall.
    + now apply cancel_NoDup.
    + unfold intervals; simpl. now rewrite Hnil.
    + exact Hnil.
  - repeat split; try apply HI; [now apply Inv_idle_intervals | exact E].
Qed.

Lemma fresh_not_In s :
  Forall (fun t => Timer.id t < nextTimer s) (timers s) ->
  ~ In (nextTimer s) (map Timer.id (timers s)).
Proof.
  intros Hf Hin. apply in_map_iff in Hin as [t [Ht Hin]].
  eapply Forall_forall in Hf; [|exact Hin]. lia.
Qed.

Lemma NoDup_snoc (l : list nat) n : NoDup l -> ~ In n l -> NoDup (l ++ [n]).
Proof.
  intros Hd Hn. induction Hd as [|x l Hx Hd IH]; simpl.
  - constructor; [intros []|constructor].
  - constructor.
    + rewrite in_app_iff. simpl. intros [H|[H|[]]]; [now apply Hx|].
      apply Hn. now left.
    + apply IH. intros H. apply Hn. now right.
Qed.

(** Registering a timer under the next handle keeps the table well formed. *)
Lemma register_wf s rep d cb :
  Forall (fun t => Timer.id t < nextTimer s) (timers s) ->
  NoDup (map Timer.id (timers s)) ->
  Forall (fun t => Timer.id t < S (nextTimer s))
         (timers s ++ [Timer.mk (nextTimer s) rep d cb])
  /\ NoDup (map Timer.id (timers s ++ [Timer.mk (nextTimer s) rep d cb])).
Proof.
  intros Hf Hd. split.
  - apply Forall_app. split.
    + eapply Forall_impl; [|exact Hf]. simpl. intros; lia.
    + constructor; [simpl; lia | constructor].
  - rewrite map_app. simpl. apply NoDup_snoc; [exact Hd|].
    now apply fresh_not_In.
Qed.

Lemma Inv_started s cb d :
  Inv s -> autoClickerInterval s = None ->
  Inv (started cb d s)
  /\ intervals (started cb d s) = [Timer.mk (nextTimer s) true d cb].
Proof.
  intros HI E. pose proof (Inv_idle_intervals HI E) as Hnil.
  destruct HI as (Hf & Hd & Hi).
  destruct (register_wf s true d cb Hf Hd) as [Hf' Hd'].
  assert (Hint : intervals (started cb d s) =
                 [Timer.mk (nextTimer s) true d cb]).
  { unfold intervals in *. simpl. rewrite filter_app, Hnil. reflexivity. }
  repeat split; try assumption.
  rewrite Hint. reflexivity.
Qed.

Lemma Inv_setTimeout cb d : preserves Inv (setTimeout cb d).
Proof.
  intros s (Hf & Hd & Hi).
  destruct (register_wf s false d cb Hf Hd) as [Hf' Hd'].
  repeat split; simpl; try assumption.
  unfold intervals in *. simpl. rewrite filter_app. simpl.
  now rewrite app_nil_r.
Qed.

(** [Inv] reads the timer table and [autoClickerInterval] only. *)
Ltac inv_frame := apply preserves_modify; intros ? H; exact H.

Lemma Inv_robot_call c : preserves Inv (robot_call c).
Proof. inv_frame. Qed.

Lemma Inv_webContents_send m : preserves Inv (webContents_send m).
Proof. inv_frame. Qed.

Lemma Inv_store_get_settings : preserves Inv store_get_settings.
Proof.
  apply preserves_bind; [apply preserves_get | intros; apply preserves_ret].
Qed.

Lemma Inv_toLowerCase v : preserves Inv (toLowerCase v).
Proof. destruct v; [apply preserves_ret | apply preserves_throw]. Qed.

Lemma Inv_stopAutoClicker : preserves Inv stopAutoClicker.
Proof.
  intros s H. rewrite stopAutoClicker_eq. simpl. now apply Inv_stopped.
Qed.

Lemma Inv_start_auto_clicker d : preserves Inv (start_auto_clicker d).
Proof.
  intros s H. rewrite start_auto_clicker_eq. simpl.
  destruct (Inv_stopped H) as (H1 & _ & H2). now apply Inv_started.
Qed.

Lemma Inv_toggleAutoClicker : preserves Inv toggleAutoClicker.
Proof.
  intros s H. rewrite toggleAutoClicker_eq. simpl.
  destruct (autoClickerInterval s) eqn:E.
  - apply (Inv_stopped H).
  - now apply (Inv_started (s:=s)).
Qed.

Lemma Inv_dispatch_action a : preserves Inv (dispatch_action a).
Proof.
  unfold dispatch_action.
  destruct (String.eqb (Action.type a) "click").
  - apply preserves_bind; intros; apply Inv_robot_call.
  - destruct (String.eqb (Action.type a) "key");
      [apply Inv_robot_call | apply preserves_ret].
Qed.

Lemma Inv_playMacroOnce c : preserves Inv (playMacroOnce c).
Proof.
  unfold playMacroOnce. apply preserves_bind; [apply preserves_get|].
  intros s0. destruct (nth_error (closures s0) c); [|apply preserves_ret].
  destruct (_ || _); [inv_frame|].
  apply preserves_bind.
  - apply preserves_forEach_from. intros. apply Inv_setTimeout.
  - intros _. apply preserves_bind; [inv_frame|].
    intros _. apply Inv_setTimeout.
Qed.

Lemma Inv_play_macro macro speed times :
  preserves Inv (play_macro macro speed times).
Proof.
  unfold play_macro. apply preserves_bind; [apply preserves_get|].
  intros s0. destruct (macroPlaying s0); [apply preserves_ret|].
  apply preserves_bind; [inv_frame|]. intros _.
  apply preserves_bind; [apply preserves_get|]. intros s1.
  apply preserves_bind; [inv_frame|]. intros _.
  apply preserves_bind; [apply Inv_playMacroOnce|]. intros _.
  apply preserves_ret.
Qed.

Lemma Inv_playMacro : preserves Inv playMacro.
Proof.
  unfold playMacro, store_get_lastMacro.
  apply preserves_bind.
  - apply preserves_bind; [apply preserves_get | intros; apply preserves_ret].
  - intros m. destruct (0 <? List.length m)%nat; [|apply preserves_ret].
    apply preserves_bind; [apply Inv_store_get_settings|].
    intros. apply Inv_webContents_send.
Qed.

Lemma Inv_keyListener name state : preserves Inv (keyListener name state).
Proof.
  unfold keyListener. destruct state.
  - apply preserves_bind; [apply Inv_store_get_settings|]. intros st.
    apply preserves_bind;
      [apply preserves_when, Inv_toggleAutoClicker|]. intros _.
    apply preserves_bind;
      [apply preserves_when, Inv_webContents_send|]. intros _.
    apply preserves_bind; [apply preserves_when, Inv_playMacro|]. intros _.
    apply preserves_when.
    destruct (strict_eq (hotkeyMode st) "hold").
    + apply preserves_bind; [apply Inv_toLowerCase|].
      intros. apply Inv_robot_call.
    + destruct (strict_eq (hotkeyMode st) "toggle"); [|apply preserves_ret].
      apply preserves_bind; [inv_frame|]. intros _.
      apply preserves_bind; [apply preserves_get|]. intros s1.
      destruct (hotkeyPressed s1);
        (apply preserves_bind; [apply Inv_toLowerCase|];
         intros; apply Inv_robot_call).
  - apply preserves_bind; [apply Inv_store_get_settings|]. intros st.
    apply preserves_when.
    apply preserves_bind; [apply Inv_toLowerCase|].
    intros. apply Inv_robot_call.
Qed.

Lemma Inv_run_callback cb : preserves Inv (run_callback cb).
Proof.
  destruct cb; simpl.
  - apply preserves_bind; intros; apply Inv_robot_call.
  - apply Inv_robot_call.
  - apply Inv_dispatch_action.
  - apply Inv_playMacroOnce.
Qed.

Lemma Inv_fire h : preserves Inv (fire h).
Proof.
  intros s H. unfold fire, bind at 1, get.
  destruct (find_timer h (timers s)) as [t|] eqn:E; [|exact H].
  apply find_timer_In in E as [Hin Hid].
  destruct (Timer.repeat t) eqn:Er; unfold bind; simpl.
  - rewrite (surjective_pairing (run_callback _ _)).
    destruct (fst _); simpl; now apply Inv_run_callback.
  - set (s1 := set_timers _ _ _).
    assert (H1 : Inv s1).
    { destruct H as (Hf & Hd & Hi). repeat split; simpl.
      - now apply cancel_Forall.
      - now apply cancel_NoDup.
      - unfold intervals in *. simpl.
        now rewrite (@cancel_one_shot h (timers s) t Hd Hin Hid Er). }
    rewrite (surjective_pairing (run_callback _ _)).
    destruct (fst _); simpl; now apply Inv_run_callback.
Qed.

Lemma Inv_handle e : preserves Inv (handle e).
Proof.
  destruct e; unfold handle, returning;
    (apply preserves_bind; [|intros; apply preserves_ret]).
  - apply preserves_bind; [apply preserves_get | intros; apply preserves_ret].
  - apply preserves_bind; [inv_frame | intros; apply preserves_ret].
  - apply Inv_start_auto_clicker.
  - apply preserves_bind;
      [apply Inv_stopAutoClicker | intros; apply preserves_ret].
  - apply preserves_bind; [inv_frame | intros; apply preserves_ret].
  - apply preserves_bind; [apply preserves_get|]. intros.
    apply preserves_bind; [inv_frame | intros; apply preserves_ret].
  - apply Inv_play_macro.
  - apply preserves_bind; [inv_frame | intros; apply preserves_ret].
  - apply Inv_keyListener.
  - apply Inv_fire.
Qed.

(** What every event preserves holds after every run. *)
Lemma exec_invariant (P : State -> Prop) :
  (forall e, preserves P (handle e)) ->
  forall evs s, P s -> P (exec evs s).
Proof.
  intros Hp evs. induction evs as [|e r IH]; intros s Hs; simpl.
  - exact Hs.
  - apply IH. unfold step. apply Hp, Hs.
Qed.

Lemma Inv_exec disk evs : Inv (exec evs (init disk)).
Proof. apply exec_invariant; [exact Inv_handle | apply Inv_init]. Qed.

(** C7: in every state the engine can reach, at most one repeating timer is
    pending, the one [autoClickerInterval] names. From such a state,
    ['start-auto-clicker'] leaves exactly the timer it has just registered
    (an active one is cancelled first and the call is not refused),
    [toggleAutoClicker] leaves none when one was active and exactly one new
    timer otherwise, and ['stop-auto-clicker'] leaves none. *)
Theorem auto_clicker_single_timer (disk : Store) (evs : list Event) :
  let s := exec evs (init disk) in
  List.length (intervals s) <= 1
  /\ map Timer.id (intervals s) = handle_list (autoClickerInterval s)
  /\ (forall d,
        start_auto_clicker d s
        = (Normal true, started ClickAtPointer d (stopped s))
        /\ intervals (snd (start_auto_clicker d s))
           = [Timer.mk (nextTimer s) true d ClickAtPointer])
  /\ intervals (snd (toggleAutoClicker s))
     = match autoClickerInterval s with
       | Some _ => []
       | None =>
           [Timer.mk (nextTimer s) true
              (or_number
                 (autoClickerSpeed
                    match settings (store s) with
                    | Some v => v
                    | None => empty_settings
                    end) 100%float)
              Click]
       end
  /\ intervals (snd (stop_auto_clicker s)) = [].
Proof.
  intros s. pose proof (Inv_exec disk evs) as H. fold s in H.
  destruct (Inv_stopped H) as (Hs & Hnil & Hnone).
  repeat split.
  - destruct H as (_ & _ & Hi).
    rewrite <- (length_map Timer.id), Hi.
    destruct (autoClickerInterval s); simpl; lia.
  - apply H.
  - apply start_auto_clicker_eq.
  - rewrite start_auto_clicker_eq. simpl.
    destruct (Inv_started ClickAtPointer d Hs Hnone) as [_ ->].
    unfold stopped. destruct (autoClickerInterval s); reflexivity.
  - rewrite toggleAutoClicker_eq. simpl.
    destruct (autoClickerInterval s) eqn:E.
    + exact Hnil.
    + destruct (Inv_started Click
        (or_number
           (autoClickerSpeed
              match settings (store s) with
              | Some v => v
              | None => empty_settings
              end) 100%float) H E) as [_ Hone].
      exact Hone.
  - rewrite stop_auto_clicker_eq. exact Hnil.
Qed.

(** ** Pending repetitions and their closures *)

Lemma incr_playCount_length l : forall c,
  List.length (incr_playCount c l) = List.length l.
Proof.
  induction l as [|e r IH]; intros [|c]; simpl; try reflexivity.
  now rewrite IH.
Qed.

Lemma scheduled_known n gap macro : forall i h,
  Forall (known_closure n) (scheduled gap i h macro).
Proof.
  induction macro as [|a r IH]; intros i h; simpl; constructor;
    [exact I | apply IH].
Qed.

Lemma Closed_register s rep d cb :
  Closed s ->
  known_closure (List.length (closures s)) (Timer.mk (nextTimer s) rep d cb) ->
  Closed (set_timers (timers s ++ [Timer.mk (nextTimer s) rep d cb])
                     (S (nextTimer s)) s).
Proof.
  intros H K. unfold Closed. simpl. apply Forall_app. split; [exact H|].
  constructor; [exact K | constructor].
Qed.

Lemma Closed_cancel s h :
  Closed s -> Closed (set_timers (cancel h (timers s)) (nextTimer s) s).
Proof. intros H. unfold Closed. simpl. now apply cancel_Forall. Qed.

Lemma Closed_entered s macro speed times :
  Closed s -> Closed (entered macro speed times s).
Proof.
  unfold Closed. simpl. rewrite length_app. simpl. intros H.
  eapply Forall_impl; [|exact H].
  intros t. unfold known_closure. destruct (Timer.callback t); auto. lia.
Qed.

Lemma Closed_playMacroOnce c : preserves Closed (playMacroOnce c).
Proof.
  intros s H. destruct (nth_error (closures s) c) as [env|] eqn:E.
  - destruct (reached (Closure.playCount env) (Closure.maxPlays env)
              || negb (macroPlaying s)) eqn:G.
    + rewrite (playMacroOnce_terminates _ _ E G). exact H.
    + apply orb_false_iff in G as [Gr Gp]. apply negb_false_iff in Gp.
      rewrite (playMacroOnce_repetition _ _ E Gp Gr). unfold Closed. simpl.
      rewrite incr_playCount_length.
      apply Forall_app. split; [exact H|].
      apply Forall_app. split; [apply scheduled_known|].
      constructor; [|constructor].
      unfold known_closure. simpl. apply nth_error_Some. congruence.
  - unfold playMacroOnce, bind, get. rewrite E. exact H.
Qed.

Lemma Closed_play_macro macro speed times :
  preserves Closed (play_macro macro speed times).
Proof.
  intros s H. destruct (macroPlaying s) eqn:E.
  - now rewrite play_macro_playing.
  - rewrite play_macro_idle by exact E. simpl.
    apply Closed_playMacroOnce, Closed_entered, H.
Qed.

Ltac closed_walk :=
  repeat first
    [ apply Closed_playMacroOnce
    | apply Closed_play_macro
    | apply preserves_ret
    | apply preserves_throw
    | apply preserves_get
    | apply preserves_modify; intros ? ?;
      first [assumption | apply Closed_cancel; assumption]
    | apply preserves_register; intros ? ?;
      apply Closed_register; [assumption | exact I]
    | apply preserves_when
    | apply preserves_bind; [|intros]
    | match goal with
      | |- preserves _ (if ?b then _ else _) => destruct b
      | |- preserves _ (match ?o with _ => _ end) => destruct o
      end ].

Lemma Closed_handle e : preserves Closed (handle e).
Proof.
  destruct e;
    unfold handle, returning, get_settings, save_settings, start_auto_clicker,
      stop_auto_clicker, start_macro_recording, stop_macro_recording,
      stop_macro, keyListener, fire, run_callback, dispatch_action,
      toggleAutoClicker, stopAutoClicker, toggleMacroRecording, playMacro,
      toLowerCase, setTimeout, setInterval, clearInterval, robot_call,
      webContents_send, store_get_settings, store_get_lastMacro,
      store_set_settings, store_set_lastMacro;
    closed_walk.
Qed.

(** In every reachable state a pending [playMacroOnce] finds its closure:
    the first branch of [playMacroOnce]'s lookup is never taken. *)
Lemma pending_repetition_has_closure disk evs t c :
  In t (timers (exec evs (init disk))) ->
  Timer.callback t = PlayMacroOnce c ->
  exists env, nth_error (closures (exec evs (init disk))) c = Some env.
Proof.
  intros Hin Hcb.
  assert (H : Closed (exec evs (init disk)))
    by (apply exec_invariant; [exact Closed_handle | constructor]).
  eapply Forall_forall in H; [|exact Hin].
  unfold known_closure in H. rewrite Hcb in H.
  destruct (nth_error _ c) as [env|] eqn:E; [now exists env|].
  apply nth_error_None in E. lia.
Qed.

(** ** Macro recording *)

(** Walks a handler down to its assignments; each must keep the property by
    computation. *)
Ltac walk :=
  repeat first
    [ apply preserves_ret
    | apply preserves_throw
    | apply preserves_get
    | apply preserves_modify; intros ? ?; first [assumption | reflexivity]
    | apply preserves_register; intros ? ?; first [assumption | reflexivity]
    | apply preserves_when
    | apply preserves_forEach_from; intros
    | apply preserves_bind; [|intros]
    | match goal with
      | |- preserves _ (if ?b then _ else _) => destruct b
      | |- preserves _ (match ?o with _ => _ end) => destruct o
      end ].

Ltac unfold_handlers :=
  unfold handle, returning, get_settings, save_settings, start_auto_clicker,
    stop_auto_clicker, start_macro_recording, stop_macro_recording,
    play_macro, stop_macro, keyListener, fire, run_callback, playMacroOnce,
    forEach, dispatch_action, toggleAutoClicker, stopAutoClicker,
    toggleMacroRecording, playMacro, toLowerCase, setTimeout, setInterval,
    clearInterval, robot_call, webContents_send, store_get_settings,
    store_get_lastMacro, store_set_settings, store_set_lastMacro.

(** No handler, listener branch or timer callback adds to [macroRecording]:
    the only assignment to it is the reset of ['start-macro-recording']. *)
Lemma macroRecording_handle e :
  preserves (fun s => macroRecording s = []) (handle e).
Proof. destruct e; unfold_handlers; walk. Qed.

Lemma macroRecording_exec disk evs : macroRecording (exec evs (init disk)) = [].
Proof.
  apply (@exec_invariant (fun s => macroRecording s = []));
    [exact macroRecording_handle | reflexivity].
Qed.

Lemma stop_macro_recording_eq s :
  stop_macro_recording s =
  (Normal (macroRecording s),
   set_store {| settings := settings (store s);
                lastMacro := Some (macroRecording s) |} s).
Proof. reflexivity. Qed.

(** As main.js stands: ['start-macro-recording'] empties the in-memory
    sequence, nothing the program can receive adds to it, and
    ['stop-macro-recording'] returns it as it stands and stores the same
    value under ['lastMacro']. *)
Lemma stop_macro_recording_returns_memory :
  (forall s,
     macroRecording (snd (start_macro_recording s)) = [])
  /\ (forall s,
        fst (stop_macro_recording s) = Normal (macroRecording s)
        /\ lastMacro (store (snd (stop_macro_recording s)))
           = Some (macroRecording s))
  /\ (forall disk evs,
        macroRecording (exec evs (init disk)) = []
        /\ fst (stop_macro_recording (exec evs (init disk))) = Normal []).
Proof.
  repeat split.
  - apply macroRecording_exec.
  - rewrite stop_macro_recording_eq. simpl. now rewrite macroRecording_exec.
Qed.

(** C10: ['stop-macro-recording'] stores the in-memory recording under
    ['lastMacro'] whatever was there, and touches nothing else: the settings,
    the auto-clicker handle, the flags, the closures, the timers and the
    robotjs and renderer logs are the ones it found. After any run of events
    from start-up, a start among them or not, the value stored is the empty
    sequence, whatever macro the disk held. *)
Theorem stop_macro_recording_overwrites_lastMacro :
  (forall s,
     let s' := snd (stop_macro_recording s) in
     lastMacro (store s') = Some (macroRecording s)
     /\ settings (store s') = settings (store s)
     /\ autoClickerInterval s' = autoClickerInterval s
     /\ macroRecording s' = macroRecording s
     /\ macroPlaying s' = macroPlaying s
     /\ hotkeyPressed s' = hotkeyPressed s
     /\ closures s' = closures s
     /\ timers s' = timers s
     /\ nextTimer s' = nextTimer s
     /\ robot s' = robot s
     /\ sent s' = sent s)
  /\ (forall disk evs,
        lastMacro
          (store (snd (stop_macro_recording (exec evs (init disk)))))
        = Some []).
Proof.
  split.
  - intros s. repeat split.
  - intros disk evs. rewrite stop_macro_recording_eq. simpl.
    now rewrite macroRecording_exec.
Qed.




(** ** The hotkey button *)

Lemma quiet_when b m : quiet m -> quiet (when b m).
Proof.
  intros H. destruct b; [exact H|].
  intros s. exists s. repeat split.
Qed.

Lemma quiet_toggleAutoClicker : quiet toggleAutoClicker.
Proof.
  intros s. rewrite toggleAutoClicker_eq. eexists. split; [reflexivity|].
  unfold stopped. destruct (autoClickerInterval s); repeat split.
Qed.

Lemma quiet_toggleMacroRecording : quiet toggleMacroRecording.
Proof. intros s. eexists. repeat split. Qed.

Lemma quiet_playMacro : quiet playMacro.
Proof.
  intros s. unfold playMacro, bind, store_get_lastMacro, bind, get, ret.
  destruct (0 <? _)%nat; eexists; repeat split.
Qed.

Lemma bind_quiet {B} (m : JS unit) (k : unit -> JS B) s :
  quiet m ->
  exists s',
    bind m k s = k tt s'
    /\ store s' = store s
    /\ robot s' = robot s
    /\ hotkeyPressed s' = hotkeyPressed s.
Proof.
  intros H. destruct (H s) as (s' & E & Hs). exists s'. split; [|exact Hs].
  unfold bind. now rewrite E.
Qed.

(** Runs a hotkey branch of the listener that is [quiet]. *)
Ltac skip_quiet Hq s' :=
  match goal with
  | |- context [bind (when ?c ?m) ?k ?s] =>
      destruct (@bind_quiet unit (when c m) k s (quiet_when c Hq))
        as (s' & -> & ? & ? & ?)
  end.

Lemma or_string_bound b d : b <> ""%string -> or_string (Some b) d = b.
Proof.
  intros H. simpl. destruct (String.eqb b "") eqn:E; [|reflexivity].
  now apply String.eqb_eq in E.
Qed.

(** The listener on a DOWN of the bound button, up to the three other hotkey
    branches. *)
Lemma keyListener_down s st b :
  settings (store s) = Some st ->
  hotkeyButton st = Some b -> b <> ""%string ->
  exists s3,
    store s3 = store s /\ robot s3 = robot s
    /\ hotkeyPressed s3 = hotkeyPressed s
    /\ keyListener b DOWN s =
       (if strict_eq (hotkeyMode st) "hold" then
          robot_call (keyToggle (lower b) "down")
        else if strict_eq (hotkeyMode st) "toggle" then
          modify (fun s => set_hotkeyPressed (negb (hotkeyPressed s)) s) ;;
          s <- get ;;
          if hotkeyPressed s then robot_call (keyToggle (lower b) "down")
          else robot_call (keyToggle (lower b) "up")
        else ret tt) s3.
Proof.
  intros Hst Hb Hne. unfold keyListener, bind at 1, store_get_settings.
  unfold bind at 1, get, ret. rewrite Hst.
  skip_quiet quiet_toggleAutoClicker s1.
  skip_quiet quiet_toggleMacroRecording s2.
  skip_quiet quiet_playMacro s3.
  exists s3. repeat split; try congruence.
  rewrite Hb, (or_string_bound "F" Hne), String.eqb_refl. simpl.
  destruct (strict_eq (hotkeyMode st) "hold"); [reflexivity|].
  destruct (strict_eq (hotkeyMode st) "toggle"); [|reflexivity].
  unfold bind, modify, get. simpl.
  destruct (negb (hotkeyPressed s3)); reflexivity.
Qed.

Lemma keyListener_up s st name :
  settings (store s) = Some st ->
  keyListener name UP s =
  when (String.eqb name (or_string (hotkeyButton st) "F")
        && strict_eq (hotkeyMode st) "hold")
    (k <- toLowerCase (hotkeyButton st) ;;
     robot_call (keyToggle k "up")) s.
Proof.
  intros Hst. unfold keyListener, bind at 1, store_get_settings.
  unfold bind at 1, get, ret. now rewrite Hst.
Qed.

(** C6: with the hotkey button bound to [b], a DOWN of [b] in hold mode
    calls [keyToggle(b.toLowerCase(), 'down')] and an UP calls
    [keyToggle(b.toLowerCase(), 'up')], neither touching [hotkeyPressed]; in
    toggle mode a DOWN negates [hotkeyPressed] and calls [keyToggle] with
    ['down'] when the flag is now true and ['up'] when it is now false, and
    an UP of any key changes nothing at all. *)
Theorem hotkey_button_modes (s : State) (st : Settings) (b : string) :
  settings (store s) = Some st ->
  hotkeyButton st = Some b ->
  b <> ""%string ->
  (hotkeyMode st = Some "hold"%string ->
     fst (keyListener b DOWN s) = Normal tt
     /\ robot (snd (keyListener b DOWN s))
        = robot s ++ [keyToggle (lower b) "down"]
     /\ hotkeyPressed (snd (keyListener b DOWN s)) = hotkeyPressed s
     /\ keyListener b UP s
        = (Normal tt, set_robot (robot s ++ [keyToggle (lower b) "up"]) s))
  /\ (hotkeyMode st = Some "toggle"%string ->
        fst (keyListener b DOWN s) = Normal tt
        /\ hotkeyPressed (snd (keyListener b DOWN s))
           = negb (hotkeyPressed s)
        /\ robot (snd (keyListener b DOWN s))
           = robot s
             ++ [keyToggle (lower b)
                   (if negb (hotkeyPressed s) then "down" else "up")]
        /\ forall name, keyListener name UP s = (Normal tt, s)).
Proof.
  intros Hst Hb Hne.
  destruct (keyListener_down s Hst Hb Hne) as (s3 & Hs & Hr & Hp & ->).
  split; intros Hm; rewrite Hm; simpl strict_eq; cbv iota.
  - split; [reflexivity|]. split; [simpl; congruence|].
    split; [simpl; congruence|].
    rewrite (keyListener_up s b Hst), Hb, Hm, (or_string_bound "F" Hne),
      String.eqb_refl.
    reflexivity.
  - split; [|split; [|split]].
    + unfold bind, modify, get. simpl.
      destruct (hotkeyPressed s3); reflexivity.
    + unfold bind, modify, get. simpl.
      rewrite <- Hp. destruct (hotkeyPressed s3); reflexivity.
    + unfold bind, modify, get. simpl.
      rewrite <- Hp, <- Hr. destruct (hotkeyPressed s3); reflexivity.
    + intros name. rewrite (keyListener_up s name Hst), Hm. simpl.
      now rewrite andb_false_r.
Qed.

(** ** Arguments of ['start-auto-clicker'] and ['play-macro'] *)

(** The first repetition of an accepted ['play-macro'] call. *)
Lemma play_macro_first_repetition s macro speed times :
  macroPlaying s = false ->
  reached 0 (maxPlays_of times) = false ->
  let gap := (100 / speed)%float in
  let n := List.length macro in
  snd (play_macro macro speed times s) =
  set_timers
    (timers s ++ scheduled gap 0 (nextTimer s) macro
     ++ [Timer.mk (nextTimer s + n) false (num_of_nat n * gap + 100)%float
                  (PlayMacroOnce (List.length (closures s)))])
    (S (nextTimer s + n))
    (set_closures
       (incr_playCount (List.length (closures s))
          (closures (entered macro speed times s)))
       (entered macro speed times s)).
Proof.
  intros Hidle Hr gap n. rewrite play_macro_idle by exact Hidle.
  rewrite (playMacroOnce_repetition _ _ (entered_closure s macro speed times))
    by (try reflexivity; exact Hr).
  reflexivity.
Qed.

(** C5, as the code has it: neither handler looks at the sign of its
    argument. ['start-auto-clicker'] with any interval [d] returns [true]:
    the timer [autoClickerInterval] named, if any, has been cancelled, one
    repeating timer with delay [d] has been registered after the timers
    that remain, and its handle is kept; in a state the engine can reach
    that new timer is then the only repeating one. ['play-macro'] with any
    [speed], when no run is in flight and the play count allows a
    repetition, returns [true], having set [macroPlaying] and registered,
    after the pending timers, one timer per action (the action at index [i]
    with delay [i * (100 / speed)]) and one for the next repetition. *)
Theorem arguments_are_not_validated :
  (forall s d,
     fst (start_auto_clicker d s) = Normal true
     /\ autoClickerInterval (snd (start_auto_clicker d s))
        = Some (nextTimer s)
     /\ timers (snd (start_auto_clicker d s))
        = match autoClickerInterval s with
          | Some h => cancel h (timers s)
          | None => timers s
          end ++ [Timer.mk (nextTimer s) true d ClickAtPointer])
  /\ (forall disk evs d,
        intervals (snd (start_auto_clicker d (exec evs (init disk))))
        = [Timer.mk (nextTimer (exec evs (init disk))) true d
                    ClickAtPointer])
  /\ (forall s macro speed times,
        macroPlaying s = false ->
        reached 0 (maxPlays_of times) = false ->
        fst (play_macro macro speed times s) = Normal true
        /\ macroPlaying (snd (play_macro macro speed times s)) = true
        /\ timers (snd (play_macro macro speed times s))
           = timers s
             ++ scheduled (100 / speed)%float 0 (nextTimer s) macro
             ++ [Timer.mk (nextTimer s + List.length macro) false
                   (num_of_nat (List.length macro) * (100 / speed) + 100)%float
                   (PlayMacroOnce (List.length (closures s)))]
        /\ forall i action,
             nth_error macro i = Some action ->
             nth_error (timers (snd (play_macro macro speed times s)))
                       (List.length (timers s) + i)
             = Some (Timer.mk (nextTimer s + i) false
                       (num_of_nat i * (100 / speed))%float
                       (DispatchAction action))).
Proof.
  split; [|split].
  - intros s d. rewrite start_auto_clicker_eq. simpl.
    unfold stopped. destruct (autoClickerInterval s); repeat split.
  - intros disk evs d. rewrite start_auto_clicker_eq. simpl.
    destruct (Inv_stopped (Inv_exec disk evs)) as (Hs & _ & Hnone).
    destruct (Inv_started ClickAtPointer d Hs Hnone) as [_ ->].
    unfold stopped.
    destruct (autoClickerInterval (exec evs (init disk))); reflexivity.
  - intros s macro speed times Hidle Hr.
    rewrite (play_macro_first_repetition s macro speed times Hidle Hr).
    rewrite play_macro_idle by exact Hidle. split; [reflexivity|].
    split; [reflexivity|]. split; [reflexivity|].
    intros i action Hi. simpl.
    assert (Hlt : i < List.length macro)
      by (apply nth_error_Some; rewrite Hi; discriminate).
    rewrite nth_error_app2 by lia.
    replace (List.length (timers s) + i - List.length (timers s)) with i
      by lia.
    rewrite nth_error_app1 by (rewrite scheduled_length; exact Hlt).
    rewrite (scheduled_nth (100 / speed)%float _ _ 0 (nextTimer s) Hi).
    reflexivity.
Qed.

(** ** Stopping a playback run *)

Lemma stop_macro_eq s : stop_macro s = (Normal true, set_macroPlaying false s).
Proof. reflexivity. Qed.

(** With the flag clear, a repetition that fires registers nothing and calls
    nothing. *)
Lemma playMacroOnce_flag_clear s c :
  macroPlaying s = false ->
  let s' := snd (playMacroOnce c s) in
  macroPlaying s' = false /\ timers s' = timers s /\ robot s' = robot s.
Proof.
  intros H. unfold playMacroOnce, bind, get.
  destruct (nth_error (closures s) c); [|now repeat split].
  rewrite H, orb_true_r. now repeat split.
Qed.

(** An action's callback does not read the flag. *)
Lemma dispatch_action_any_flag a b s :
  robot (snd (dispatch_action a (set_macroPlaying b s)))
  = robot (snd (dispatch_action a s)).
Proof.
  unfold dispatch_action.
  destruct (String.eqb (Action.type a) "click"); [reflexivity|].
  destruct (String.eqb (Action.type a) "key"); reflexivity.
Qed.

(** ** Concrete runs *)

(** C3 on the code: ['stop-macro'] clears the flag, but the stopped run's
    next repetition (timer 1) is still pending when the second
    ['play-macro'] is accepted and sets the flag again; when timer 1 then
    fires, that repetition finds the flag set and registers the first run's
    action and next repetition once more, and the action is dispatched. *)
Theorem stopped_run_resumes_after_restart :
  macroPlaying (exec (firstn 3 stop_then_restart) idle) = false
  /\ outcomes stop_then_restart idle
     = [Normal (VBool true); Normal VUndefined; Normal (VBool true);
        Normal (VBool true); Normal VUndefined]
  /\ timers (exec stop_then_restart idle)
     = [Timer.mk 1 false 200%float (PlayMacroOnce 0);
        Timer.mk 3 false 200%float (PlayMacroOnce 1)]
  /\ timers (exec (stop_then_restart ++ [TimerFires 1]) idle)
     = [Timer.mk 3 false 200%float (PlayMacroOnce 1);
        Timer.mk 4 false 0%float (DispatchAction click_10_20);
        Timer.mk 5 false 200%float (PlayMacroOnce 0)]
  /\ robot (exec (stop_then_restart ++ [TimerFires 1; TimerFires 4]) idle)
     = [moveMouse 10 20; mouseClick "left"; keyTap "q";
        moveMouse 10 20; mouseClick "left"].
Proof. repeat split. Qed.

(** C4 on the code: after [two_runs] the flag is set, both calls' closures
    have begun two repetitions each, a repetition timer of each call is
    pending, and robotjs has received the two macros' actions in turn. *)
Theorem two_runs_in_flight :
  let s := exec two_runs idle in
  macroPlaying s = true
  /\ timers s
     = [Timer.mk 5 false 200%float (PlayMacroOnce 0);
        Timer.mk 7 false 200%float (PlayMacroOnce 1)]
  /\ map Closure.playCount (closures s) = [2%Z; 2%Z]
  /\ robot s
     = [moveMouse 10 20; mouseClick "left"; keyTap "q";
        moveMouse 10 20; mouseClick "left"; keyTap "q"].
Proof. repeat split. Qed.

(** C5 fails as stated: an interval of [0] and a speed of [-2] are both
    accepted, a timer being registered in each case. *)
Lemma nonpositive_arguments_accepted :
  fst (start_auto_clicker 0%float idle) = Normal true
  /\ timers (snd (start_auto_clicker 0%float idle))
     = [Timer.mk 0 true 0%float ClickAtPointer]
  /\ fst (play_macro [click_10_20; tap_q] (-2)%float 1 idle) = Normal true
  /\ timers (snd (play_macro [click_10_20; tap_q] (-2)%float 1 idle))
     = [Timer.mk 0 false (-0)%float (DispatchAction click_10_20);
        Timer.mk 1 false (-50)%float (DispatchAction tap_q);
        Timer.mk 2 false 0%float (PlayMacroOnce 0)].
Proof. repeat split. Qed.

(** As main.js stands, keys pressed between ['start-macro-recording'] and
    ['stop-macro-recording'] are not recorded: the stop returns the empty
    sequence and stores it. *)
Lemma recording_session_returns_nothing :
  last (outcomes record_session idle) (Normal VUndefined)
  = Normal (VMacro [])
  /\ lastMacro (store (exec record_session idle)) = Some []
  /\ robot (exec record_session idle) = [].
Proof. repeat split. Qed.

(** ** Instances *)

Lemma playMacroOnce_delays_at_speed_4 :
  let s := entered [click_10_20; tap_q] 4%float (-1) idle in
  nth_error (timers (snd (playMacroOnce 0 s))) 1
  = Some (Timer.mk 1 false 25%float (DispatchAction tap_q))
  /\ nth_error (timers (snd (playMacroOnce 0 s))) 2
     = Some (Timer.mk 2 false 150%float (PlayMacroOnce 0)).
Proof.
  intros s.
  destruct (@playMacroOnce_delays s 0
              (Closure.mk [click_10_20; tap_q] 4%float None 0)
              eq_refl eq_refl eq_refl) as (Hact & Hnext & _).
  split; [exact (Hact 1 tap_q eq_refl) | exact Hnext].
Defined.

Lemma play_macro_rejects_second_call_at_idle :
  play_macro [tap_q] 1%float 1 (set_macroPlaying true idle)
  = (Normal false, set_macroPlaying true idle)
  /\ fst (play_macro [tap_q] 1%float 1 idle) = Normal true.
Proof.
  split.
  - exact (proj1 (play_macro_rejects_second_call (set_macroPlaying true idle)
                    [tap_q] 1%float 1) eq_refl).
  - exact (proj2 (play_macro_rejects_second_call idle [tap_q] 1%float 1)
             eq_refl).
Defined.

Lemma play_macro_zero_times_at_idle :
  fst (play_macro [click_10_20] 1%float 0 idle) = Normal true
  /\ macroPlaying (snd (play_macro [click_10_20] 1%float 0 idle)) = false
  /\ timers (snd (play_macro [click_10_20] 1%float 0 idle)) = []
  /\ nextTimer (snd (play_macro [click_10_20] 1%float 0 idle)) = 0
  /\ robot (snd (play_macro [click_10_20] 1%float 0 idle)) = [].
Proof.
  exact (@play_macro_zero_times idle [click_10_20] 1%float eq_refl).
Defined.

Lemma hotkey_button_modes_at_F :
  (robot (snd (keyListener "F" DOWN (bound_F "hold")))
   = [keyToggle "f" "down"]
   /\ keyListener "F" UP (bound_F "hold")
      = (Normal tt, set_robot [keyToggle "f" "up"] (bound_F "hold")))
  /\ (hotkeyPressed (snd (keyListener "F" DOWN (bound_F "toggle"))) = true
      /\ robot (snd (keyListener "F" DOWN (bound_F "toggle")))
         = [keyToggle "f" "down"]
      /\ keyListener "F" UP (bound_F "toggle")
         = (Normal tt, bound_F "toggle")).
Proof.
  assert (Hne : "F"%string <> ""%string) by discriminate.
  split.
  - destruct (proj1 (@hotkey_button_modes (bound_F "hold") _ "F"
                       eq_refl eq_refl Hne) eq_refl)
      as (_ & Hd & _ & Hu).
    split; [exact Hd | exact Hu].
  - destruct (proj2 (@hotkey_button_modes (bound_F "toggle") _ "F"
                       eq_refl eq_refl Hne) eq_refl)
      as (_ & Hp & Hd & Hu).
    split; [exact Hp | split; [exact Hd | exact (Hu "F"%string)]].
Defined.


Lemma arguments_are_not_validated_at_nonpositive :
  (timers (snd (start_auto_clicker (-5)%float
                  (exec [Ipc_start_auto_clicker 50%float] idle)))
   = [Timer.mk 1 true (-5)%float ClickAtPointer]
   /\ intervals (snd (start_auto_clicker 0%float
                        (exec [Ipc_start_auto_clicker 50%float] idle)))
      = [Timer.mk 1 true 0%float ClickAtPointer])
  /\ macroPlaying (snd (play_macro [tap_q] 0%float 1 idle)) = true
  /\ timers (snd (play_macro [tap_q] 0%float 1 idle))
     = [Timer.mk 0 false nan (DispatchAction tap_q);
        Timer.mk 1 false infinity (PlayMacroOnce 0)].
Proof.
  destruct arguments_are_not_validated as (Hstart & Hreach & Hplay).
  destruct (Hstart (exec [Ipc_start_auto_clicker 50%float] idle) (-5)%float)
    as (_ & _ & Htimers1).
  pose proof (Hreach empty_disk [Ipc_start_auto_clicker 50%float] 0%float)
    as Hone.
  destruct (Hplay idle [tap_q] 0%float 1%Z eq_refl eq_refl)
    as (_ & Hflag & Htimers & _).
  exact (conj (conj Htimers1 Hone) (conj Hflag Htimers)).
Defined.

(** * Further properties *)

(** ** Settings *)

(** No event but ['save-settings'] writes the stored settings. *)
Lemma settings_frame e (v : option Settings) :
  (forall w, e <> Ipc_save_settings w) ->
  preserves (fun s => settings (store s) = v) (handle e).
Proof.
  intros He. destruct e; try (unfold_handlers; walk).
  now elim (He v0).
Qed.

Lemma settings_kept evs : forall s,
  forallb (fun e => negb (is_save_settings e)) evs = true ->
  settings (store (exec evs s)) = settings (store s).
Proof.
  induction evs as [|e r IH]; intros s He; simpl in *; [reflexivity|].
  apply andb_prop in He as [He Hr]. rewrite (IH _ Hr). unfold step.
  apply (@settings_frame e (settings (store s))); [|reflexivity].
  intros w ->. discriminate.
Qed.

(** X1: only ['save-settings'] writes the stored settings. Over any run of
    other IPC calls, key events and timer firings they stay what they were,
    so ['get-settings'] answers the same after the run as before it; and
    ['get-settings'] itself writes nothing (the defaults it answers with
    while nothing is stored are not saved). *)
Theorem only_save_settings_writes_settings (evs : list Event) (s : State) :
  forallb (fun e => negb (is_save_settings e)) evs = true ->
  settings (store (exec evs s)) = settings (store s)
  /\ fst (get_settings (exec evs s)) = fst (get_settings s)
  /\ snd (get_settings s) = s.
Proof.
  intros He. pose proof (settings_kept evs s He) as H.
  split; [exact H|]. split; [|reflexivity].
  unfold get_settings, bind, get, ret. simpl. now rewrite H.
Qed.

(** The listener on a DOWN of any key, up to the three other hotkey
    branches; [st] is what [store.get('settings', {})] returns. *)
Lemma keyListener_down_any s name :
  let st := match settings (store s) with
            | Some v => v
            | None => empty_settings
            end in
  exists s3,
    store s3 = store s /\ robot s3 = robot s
    /\ hotkeyPressed s3 = hotkeyPressed s
    /\ keyListener name DOWN s =
       when (String.eqb name (or_string (hotkeyButton st) "F"))
        (if strict_eq (hotkeyMode st) "hold" then
           k <- toLowerCase (hotkeyButton st) ;;
           robot_call (keyToggle k "down")
         else if strict_eq (hotkeyMode st) "toggle" then
           modify (fun s => set_hotkeyPressed (negb (hotkeyPressed s)) s) ;;
           s <- get ;;
           if hotkeyPressed s then
             k <- toLowerCase (hotkeyButton st) ;;
             robot_call (keyToggle k "down")
           else
             k <- toLowerCase (hotkeyButton st) ;;
             robot_call (keyToggle k "up")
         else ret tt) s3.
Proof.
  intros st. unfold keyListener, bind at 1, store_get_settings.
  unfold bind at 1, get, ret. fold st.
  skip_quiet quiet_toggleAutoClicker s1.
  skip_quiet quiet_toggleMacroRecording s2.
  skip_quiet quiet_playMacro s3.
  exists s3. repeat split; congruence.
Qed.

Lemma keyListener_up_any s name :
  let st := match settings (store s) with
            | Some v => v
            | None => empty_settings
            end in
  keyListener name UP s =
  when (String.eqb name (or_string (hotkeyButton st) "F")
        && strict_eq (hotkeyMode st) "hold")
    (k <- toLowerCase (hotkeyButton st) ;;
     robot_call (keyToggle k "up")) s.
Proof. reflexivity. Qed.

(** X2: while no settings have been saved, ['get-settings'] reports the
    defaults (hotkey button [F], mode ['toggle']) but the listener reads
    [{}]: whatever key goes down or up, it returns normally, calls robotjs
    not at all and leaves [hotkeyPressed] as it is. *)
Theorem unsaved_settings_hotkey_inert
  (s : State) (name : string) (ks : KeyState) :
  settings (store s) = None ->
  fst (get_settings s) = Normal default_settings
  /\ fst (keyListener name ks s) = Normal tt
  /\ robot (snd (keyListener name ks s)) = robot s
  /\ hotkeyPressed (snd (keyListener name ks s)) = hotkeyPressed s.
Proof.
  intros H. split; [unfold get_settings, bind, get, ret; now rewrite H|].
  destruct ks.
  - destruct (keyListener_down_any s name) as (s3 & _ & Hr & Hp & ->).
    rewrite H. simpl. destruct (String.eqb name "F"); simpl; auto.
  - rewrite keyListener_up_any, H. simpl.
    rewrite andb_false_r. simpl. auto.
Qed.

(** ** Exceptions *)

(** X3: with no [hotkeyButton] stored and mode ['hold'], every DOWN and
    every UP of [F] (the name the listener falls back to) throws on
    [settings.hotkeyButton.toLowerCase()] before robotjs is called: no key
    is pressed or released and [hotkeyPressed] is as it was. *)
Theorem unbound_hotkey_hold_throws
  (s : State) (st : Settings) (ks : KeyState) :
  settings (store s) = Some st ->
  hotkeyButton st = None ->
  hotkeyMode st = Some "hold"%string ->
  fst (keyListener "F" ks s) = Throw "TypeError"
  /\ robot (snd (keyListener "F" ks s)) = robot s
  /\ hotkeyPressed (snd (keyListener "F" ks s)) = hotkeyPressed s.
Proof.
  intros Hs Hb Hm. destruct ks.
  - destruct (keyListener_down_any s "F") as (s3 & _ & Hr & Hp & ->).
    rewrite Hs, Hb, Hm. simpl. auto.
  - rewrite keyListener_up_any, Hs, Hb, Hm. simpl. auto.
Qed.

(** X4: with no [hotkeyButton] stored and mode ['toggle'], a DOWN of [F]
    negates [hotkeyPressed] and only then throws: the flag has changed, yet
    robotjs has not been called. *)
Theorem unbound_hotkey_flips_then_throws (s : State) (st : Settings) :
  settings (store s) = Some st ->
  hotkeyButton st = None ->
  hotkeyMode st = Some "toggle"%string ->
  fst (keyListener "F" DOWN s) = Throw "TypeError"
  /\ hotkeyPressed (snd (keyListener "F" DOWN s)) = negb (hotkeyPressed s)
  /\ robot (snd (keyListener "F" DOWN s)) = robot s.
Proof.
  intros Hs Hb Hm.
  destruct (keyListener_down_any s "F") as (s3 & _ & Hr & Hp & ->).
  rewrite Hs, Hb, Hm. simpl. unfold bind, modify, get. simpl.
  rewrite <- Hp, <- Hr. destruct (hotkeyPressed s3); repeat split.
Qed.

(** ** Pressing the hotkey button again *)

Lemma snd_returning {A} (f : A -> Value) (m : JS A) s :
  snd (returning f m s) = snd (m s).
Proof.
  unfold returning, bind, ret. now destruct (m s) as [[a|e] s'].
Qed.

Lemma step_Key name ks s : step (Key name ks) s = snd (keyListener name ks s).
Proof. apply snd_returning. Qed.

Lemma keyListener_down_toggle s st b :
  settings (store s) = Some st ->
  hotkeyButton st = Some b -> b <> ""%string ->
  hotkeyMode st = Some "toggle"%string ->
  exists s3,
    store s3 = store s /\ robot s3 = robot s
    /\ hotkeyPressed s3 = hotkeyPressed s
    /\ snd (keyListener b DOWN s) =
       set_robot
         (robot s3
          ++ [keyToggle (lower b)
                (if negb (hotkeyPressed s3) then "down" else "up")])
         (set_hotkeyPressed (negb (hotkeyPressed s3)) s3).
Proof.
  intros Hs Hb Hne Hm.
  destruct (keyListener_down s Hs Hb Hne) as (s3 & H1 & H2 & H3 & ->).
  exists s3. repeat split; try assumption.
  rewrite Hm. simpl. unfold bind, modify, get. simpl.
  destruct (hotkeyPressed s3); reflexivity.
Qed.

Lemma keyListener_up_toggle s st name :
  settings (store s) = Some st ->
  hotkeyMode st = Some "toggle"%string ->
  snd (keyListener name UP s) = s.
Proof.
  intros Hs Hm. rewrite (keyListener_up s name Hs), Hm. simpl.
  now rewrite andb_false_r.
Qed.

(** X5: in toggle mode, pressing and releasing the bound button twice
    brings [hotkeyPressed] back to where it was, having called [keyToggle]
    exactly twice, once each way; the releases call nothing. *)
Theorem toggle_mode_two_presses (s : State) (st : Settings) (b : string) :
  settings (store s) = Some st ->
  hotkeyButton st = Some b ->
  b <> ""%string ->
  hotkeyMode st = Some "toggle"%string ->
  let s' := exec [Key b DOWN; Key b UP; Key b DOWN; Key b UP] s in
  hotkeyPressed s' = hotkeyPressed s
  /\ robot s'
     = robot s
       ++ [keyToggle (lower b) (if hotkeyPressed s then "up" else "down");
           keyToggle (lower b) (if hotkeyPressed s then "down" else "up")].
Proof.
  intros Hs Hb Hne Hm. simpl. rewrite !step_Key.
  destruct (keyListener_down_toggle s Hs Hb Hne Hm)
    as (s1 & Hs1 & Hr1 & Hp1 & ->).
  set (t1 := set_robot _ _).
  assert (Ht1 : settings (store t1) = Some st) by (simpl; congruence).
  rewrite (keyListener_up_toggle t1 b Ht1 Hm).
  destruct (keyListener_down_toggle t1 Ht1 Hb Hne Hm)
    as (s2 & Hs2 & Hr2 & Hp2 & ->).
  set (t2 := set_robot _ _).
  assert (Ht2 : settings (store t2) = Some st) by (simpl; congruence).
  rewrite (keyListener_up_toggle t2 b Ht2 Hm). simpl.
  rewrite Hp2, Hr2. simpl. rewrite Hp1, Hr1, negb_involutive.
  rewrite <- app_assoc. simpl.
  destruct (hotkeyPressed s); split; reflexivity.
Qed.

(** ** More on the auto-clicker's timer *)

Lemma filter_comm {A} (p q : A -> bool) l :
  filter p (filter q l) = filter q (filter p l).
Proof.
  induction l as [|a l IH]; simpl; [reflexivity|].
  destruct (p a) eqn:Ep, (q a) eqn:Eq; simpl; rewrite ?Ep, ?Eq, IH;
    reflexivity.
Qed.

Lemma cancel_fresh h l :
  Forall (fun t => Timer.id t < h) l -> cancel h l = l.
Proof.
  intros H. apply filter_all. intros t Ht.
  eapply Forall_forall in H; [|exact Ht].
  apply negb_true_iff, Nat.eqb_neq. lia.
Qed.

Lemma cancel_last h l rep d cb :
  Forall (fun t => Timer.id t < h) l ->
  cancel h (l ++ [Timer.mk h rep d cb]) = l.
Proof.
  intros H. unfold cancel. rewrite filter_app. simpl.
  rewrite Nat.eqb_refl. simpl. rewrite app_nil_r. now apply cancel_fresh.
Qed.

(** The handle in [autoClickerInterval] names a pending repeating timer, and
    no other timer. *)
Lemma Inv_active s h :
  Inv s -> autoClickerInterval s = Some h ->
  exists t, intervals s = [t] /\ Timer.id t = h /\ In t (timers s)
            /\ Timer.repeat t = true
            /\ forall u, In u (timers s) -> Timer.id u = h -> u = t.
Proof.
  intros (Hf & Hd & Hi) E. rewrite E in Hi. simpl in Hi.
  destruct (intervals s) as [|t [|t' r]] eqn:El; simpl in Hi;
    try discriminate.
  injection Hi as Hid. exists t.
  assert (Hin : In t (intervals s)) by (rewrite El; now left).
  apply filter_In in Hin as [Hin Hr].
  repeat split; try assumption.
  intros u Hu Hidu. apply (handle_unique (timers s)); congruence.
Qed.

Lemma one_shots_stopped s : Inv s -> one_shots (stopped s) = one_shots s.
Proof.
  intros HI. unfold stopped.
  destruct (autoClickerInterval s) as [h|] eqn:E; [|reflexivity].
  destruct (Inv_active HI E) as (t & _ & _ & _ & Hr & Hu).
  unfold one_shots. simpl. unfold cancel. rewrite filter_comm.
  apply filter_all. intros u Hin. apply filter_In in Hin as [Hin Hru].
  apply negb_true_iff, Nat.eqb_neq. intros Hid.
  rewrite (Hu u Hin Hid), Hr in Hru. discriminate.
Qed.

Lemma find_timer_found h l t :
  NoDup (map Timer.id l) -> In t l -> Timer.id t = h ->
  find_timer h l = Some t.
Proof.
  intros Hd Hin Hid. unfold find_timer.
  destruct (find _ l) as [u|] eqn:E.
  - apply find_some in E as [Hu Hidu]. apply Nat.eqb_eq in Hidu.
    f_equal. apply (handle_unique l); congruence.
  - eapply find_none in E; [|exact Hin]. simpl in E.
    apply Nat.eqb_neq in E. congruence.
Qed.

Lemma Clicking_register s rep d cb :
  Clicking s ->
  (rep = true -> cb = Click \/ cb = ClickAtPointer) ->
  Clicking (set_timers (timers s ++ [Timer.mk (nextTimer s) rep d cb])
                       (S (nextTimer s)) s).
Proof.
  intros H K. unfold Clicking. simpl. apply Forall_app. split; [exact H|].
  constructor; [exact K | constructor].
Qed.

Lemma Clicking_cancel s h :
  Clicking s -> Clicking (set_timers (cancel h (timers s)) (nextTimer s) s).
Proof. intros H. unfold Clicking. simpl. now apply cancel_Forall. Qed.

Lemma Clicking_handle e : preserves Clicking (handle e).
Proof.
  destruct e; unfold_handlers;
    repeat first
      [ apply preserves_ret
      | apply preserves_throw
      | apply preserves_get
      | apply preserves_modify; intros ? ?;
        first [assumption | apply Clicking_cancel; assumption]
      | apply preserves_register; intros ? ?;
        apply Clicking_register;
        [assumption | intros; first [discriminate | auto]]
      | apply preserves_when
      | apply preserves_forEach_from; intros
      | apply preserves_bind; [|intros]
      | match goal with
        | |- preserves _ (if ?b then _ else _) => destruct b
        | |- preserves _ (match ?o with _ => _ end) => destruct o
        end ].
Qed.

Lemma Clicking_exec disk evs : Clicking (exec evs (init disk)).
Proof. apply exec_invariant; [exact Clicking_handle | constructor]. Qed.

(** X6: from any state the engine can reach, toggling the auto-clicker
    twice leaves it as active or inactive as it was, with as many repeating
    timers and the same playback timers; when it was inactive the timer
    table is the very one it was, the renderer having been told
    'started' then 'stopped'. *)
Theorem toggleAutoClicker_twice (disk : Store) (evs : list Event) :
  let s := exec evs (init disk) in
  let s2 := snd (toggleAutoClicker (snd (toggleAutoClicker s))) in
  (autoClickerInterval s2 = None <-> autoClickerInterval s = None)
  /\ List.length (intervals s2) = List.length (intervals s)
  /\ one_shots s2 = one_shots s
  /\ (autoClickerInterval s = None ->
      timers s2 = timers s
      /\ sent s2 = sent s ++ [auto_clicker_started; auto_clicker_stopped]).
Proof.
  intros s s2. pose proof (Inv_exec disk evs) as HI. fold s in HI.
  subst s2. rewrite (toggleAutoClicker_eq s).
  destruct (autoClickerInterval s) as [h|] eqn:E; simpl snd.
  - destruct (Inv_stopped HI) as (HI1 & Hnil & Hnone).
    rewrite toggleAutoClicker_eq. simpl autoClickerInterval.
    rewrite Hnone. simpl snd.
    match goal with
    | |- context [started Click ?d ?x] =>
        assert (HIx : Inv x) by exact HI1;
        assert (Hx : autoClickerInterval x = None) by exact Hnone;
        destruct (Inv_started Click d HIx Hx) as [_ Hone];
        set (s1 := started Click d x) in *
    end.
    destruct (Inv_active HI E) as (t & Ht & _).
    split; [split; discriminate|].
    split; [|split; [|discriminate]].
    + change (List.length (intervals s1) = List.length (intervals s)).
      now rewrite Hone, Ht.
    + change (one_shots s1 = one_shots s). unfold s1, one_shots. simpl.
      rewrite filter_app. simpl. rewrite app_nil_r.
      apply (one_shots_stopped HI).
  - assert (Hc : cancel (nextTimer s)
                   (timers s ++ [Timer.mk (nextTimer s) true
                      (or_number
                         (autoClickerSpeed
                            match settings (store s) with
                            | Some v => v
                            | None => empty_settings
                            end) 100%float) Click]) = timers s).
    { apply cancel_last. destruct HI as (Hf & _). exact Hf. }
    split; [split; reflexivity|].
    split; [|split].
    + unfold intervals. simpl. rewrite Hc. reflexivity.
    + unfold one_shots. simpl. rewrite Hc. reflexivity.
    + intros _. simpl. rewrite Hc, <- app_assoc. split; reflexivity.
Qed.

(** X7: from any state the engine can reach with the auto-clicker
    inactive, [toggleAutoClicker] registers exactly one repeating timer,
    clicking without reading the pointer, whose delay is the stored
    [autoClickerSpeed] when that is a number other than [0] and [NaN], and
    [100] when it is [0], [NaN] or missing; ['start-auto-clicker'] instead
    registers its argument as the delay whatever it is, [0] and [NaN]
    included. *)
Theorem hotkey_interval_falls_back_to_100 (disk : Store) (evs : list Event) :
  let s := exec evs (init disk) in
  autoClickerInterval s = None ->
  intervals (snd (toggleAutoClicker s))
  = [Timer.mk (nextTimer s) true
       match autoClickerSpeed
               match settings (store s) with
               | Some v => v
               | None => empty_settings
               end with
       | Some n =>
           if PrimFloat.is_zero n || PrimFloat.is_nan n then 100%float else n
       | None => 100%float
       end
       Click]
  /\ forall d,
       intervals (snd (start_auto_clicker d s))
       = [Timer.mk (nextTimer s) true d ClickAtPointer].
Proof.
  intros s E. pose proof (Inv_exec disk evs) as HI. fold s in HI. split.
  - rewrite toggleAutoClicker_eq, E. simpl snd.
    match goal with
    | |- context [started Click ?d s] =>
        destruct (Inv_started Click d HI E) as [_ Hone]
    end.
    exact Hone.
  - intros d. rewrite start_auto_clicker_eq. simpl snd.
    assert (Hs : stopped s = s) by (unfold stopped; now rewrite E).
    rewrite Hs. now destruct (Inv_started ClickAtPointer d HI E) as [_ ->].
Qed.

(** X8: stopping the auto-clicker, from any state the engine can reach,
    cancels its repeating timer and nothing else: every pending playback
    timer stays, the playback flag and closures are untouched, robotjs is
    not called; and stopping again changes nothing. *)
Theorem stop_auto_clicker_spares_playback (disk : Store) (evs : list Event) :
  let s := exec evs (init disk) in
  let s' := snd (stop_auto_clicker s) in
  intervals s' = []
  /\ one_shots s' = one_shots s
  /\ macroPlaying s' = macroPlaying s
  /\ closures s' = closures s
  /\ robot s' = robot s
  /\ stop_auto_clicker s' = (Normal true, s').
Proof.
  intros s s'. pose proof (Inv_exec disk evs) as HI. fold s in HI.
  subst s'. rewrite stop_auto_clicker_eq. simpl snd.
  destruct (Inv_stopped HI) as (_ & Hnil & Hnone).
  split; [exact Hnil|]. split; [apply (one_shots_stopped HI)|].
  assert (Hidem : stopped (stopped s) = stopped s)
    by (unfold stopped at 1; now rewrite Hnone).
  rewrite stop_auto_clicker_eq, Hidem. clear Hidem Hnil Hnone.
  unfold stopped. destruct (autoClickerInterval s); repeat split.
Qed.

Lemma Owns_register t s rep d cb :
  Owns t s ->
  Owns t (set_timers (timers s ++ [Timer.mk (nextTimer s) rep d cb])
                     (S (nextTimer s)) s).
Proof.
  intros [Hlt Hu]. split; simpl; [lia|].
  intros u Hin Hid. apply in_app_or in Hin as [Hin|[<-|[]]].
  - now apply Hu.
  - simpl in Hid. lia.
Qed.

Lemma Owns_cancel t s h :
  Owns t s -> Owns t (set_timers (cancel h (timers s)) (nextTimer s) s).
Proof.
  intros [Hlt Hu]. split; [exact Hlt|]. simpl.
  intros u Hin. apply Hu. eapply cancel_In, Hin.
Qed.

Lemma Owns_handle t e : preserves (Owns t) (handle e).
Proof.
  destruct e; unfold_handlers;
    repeat first
      [ apply preserves_ret
      | apply preserves_throw
      | apply preserves_get
      | apply preserves_modify; intros ? ?;
        first [assumption | apply Owns_cancel; assumption]
      | apply preserves_register; intros ? ?;
        apply Owns_register; assumption
      | apply preserves_when
      | apply preserves_forEach_from; intros
      | apply preserves_bind; [|intros]
      | match goal with
        | |- preserves _ (if ?b then _ else _) => destruct b
        | |- preserves _ (match ?o with _ => _ end) => destruct o
        end ].
Qed.

(** The timer a handler has just registered under the next handle. *)
Lemma Owns_started cb d s :
  Inv s -> Owns (Timer.mk (nextTimer s) true d cb) (started cb d s).
Proof.
  intros (Hf & _). split; simpl; [lia|].
  intros u Hin Hid. apply in_app_or in Hin as [Hin|[<-|[]]]; [|reflexivity].
  eapply Forall_forall in Hf; [|exact Hin]. lia.
Qed.

(** The active timer coming due runs its callback and stays. *)
Lemma tick_owned s t :
  Inv s -> Owns t s ->
  autoClickerInterval s = Some (Timer.id t) ->
  step (TimerFires (Timer.id t)) s = snd (run_callback (Timer.callback t) s).
Proof.
  intros HI [_ Hu] E.
  destruct (Inv_active HI E) as (t0 & _ & Hid & Hin & Hr & _).
  assert (t0 = t) by now apply Hu. subst t0.
  assert (Hf : find_timer (Timer.id t) (timers s) = Some t).
  { destruct HI as (_ & Hd & _). now apply find_timer_found. }
  unfold step, handle. rewrite snd_returning.
  unfold fire, bind at 1, get. rewrite Hf, Hr. reflexivity.
Qed.

(** X9: the timer ['start-auto-clicker'] registers, each time it comes due
    while its handle is still the active one (whatever else has happened
    since), has robotjs read the pointer position and then click the left
    button once; the timer [toggleAutoClicker] registers has it click the
    left button once and nothing else. Neither moves the pointer, and the
    timer stays pending under the same handle. *)
Theorem auto_clicker_tick
  (disk : Store) (evs evs' : list Event) (d : number) :
  let s := exec evs (init disk) in
  let h := nextTimer s in
  (let s1 := exec evs' (snd (start_auto_clicker d s)) in
   autoClickerInterval s1 = Some h ->
   robot (step (TimerFires h) s1)
   = robot s1 ++ [getMousePos; mouseClick "left"]
   /\ timers (step (TimerFires h) s1) = timers s1
   /\ autoClickerInterval (step (TimerFires h) s1) = Some h)
  /\ (autoClickerInterval s = None ->
      let s1 := exec evs' (snd (toggleAutoClicker s)) in
      autoClickerInterval s1 = Some h ->
      robot (step (TimerFires h) s1) = robot s1 ++ [mouseClick "left"]
      /\ timers (step (TimerFires h) s1) = timers s1
      /\ autoClickerInterval (step (TimerFires h) s1) = Some h).
Proof.
  intros s h. pose proof (Inv_exec disk evs) as HI. fold s in HI. split.
  - intros s1 E. set (t := Timer.mk h true d ClickAtPointer).
    destruct (Inv_stopped HI) as (HIs & _ & _).
    assert (Hn : nextTimer (stopped s) = h)
      by (unfold stopped; destruct (autoClickerInterval s); reflexivity).
    assert (HI1 : Inv s1).
    { apply exec_invariant; [exact Inv_handle|].
      now apply Inv_start_auto_clicker. }
    assert (HO : Owns t s1).
    { apply exec_invariant; [exact (@Owns_handle t)|].
      rewrite start_auto_clicker_eq. simpl snd. unfold t. rewrite <- Hn.
      now apply Owns_started. }
    pose proof (@tick_owned s1 t HI1 HO E) as Ht.
    change (Timer.id t) with h in Ht. rewrite Ht. simpl.
    rewrite <- app_assoc. auto.
  - intros Eidle s1 E.
    set (t := Timer.mk h true
                (or_number
                   (autoClickerSpeed
                      match settings (store s) with
                      | Some v => v
                      | None => empty_settings
                      end) 100%float) Click).
    assert (HI1 : Inv s1).
    { apply exec_invariant; [exact Inv_handle|].
      now apply Inv_toggleAutoClicker. }
    assert (HO : Owns t s1).
    { apply exec_invariant; [exact (@Owns_handle t)|].
      rewrite toggleAutoClicker_eq, Eidle. simpl snd.
      destruct (Owns_started Click (Timer.delay t) HI) as [H1 H2].
      split; [exact H1 | exact H2]. }
    pose proof (@tick_owned s1 t HI1 HO E) as Ht.
    change (Timer.id t) with h in Ht. rewrite Ht. simpl. auto.
Qed.

(** ** Runs of repetitions *)

Lemma incr_playCount_nth l : forall c macro speed mp k,
  nth_error l c = Some (Closure.mk macro speed mp k) ->
  nth_error (incr_playCount c l) c
  = Some (Closure.mk macro speed mp (k + 1)).
Proof.
  induction l as [|e r IH]; intros [|c] macro speed mp k H; simpl in *;
    try discriminate.
  - now injection H as ->.
  - now apply IH.
Qed.

Lemma scheduled_ids gap macro : forall i h,
  Forall (fun t => Timer.id t < h + List.length macro)
         (scheduled gap i h macro).
Proof.
  induction macro as [|a r IH]; intros i h; simpl; constructor.
  - simpl. lia.
  - specialize (IH (S i) (S h)). eapply Forall_impl; [|exact IH].
    simpl. intros; lia.
Qed.

Lemma scheduled_actions c gap macro : forall i h,
  Forall (fun t => is_repetition c t = false) (scheduled gap i h macro).
Proof.
  induction macro as [|a r IH]; intros i h; simpl; constructor;
    [reflexivity | apply IH].
Qed.

Lemma find_last {A} (p : A -> bool) l x :
  Forall (fun t => p t = false) l -> p x = true ->
  find p (l ++ [x]) = Some x.
Proof.
  intros H Hx. induction H as [|a l Ha _ IH]; simpl.
  - now rewrite Hx.
  - now rewrite Ha.
Qed.

Lemma find_absent {A} (p : A -> bool) l :
  Forall (fun t => p t = false) l -> find p l = None.
Proof.
  intros H. induction H as [|a l Ha _ IH]; simpl; [reflexivity|].
  now rewrite Ha.
Qed.

Lemma is_repetition_self c h d :
  is_repetition c (Timer.mk h false d (PlayMacroOnce c)) = true.
Proof. unfold is_repetition. simpl. apply Nat.eqb_refl. Qed.

(** Between repetitions, the pending repetition coming due runs
    [playMacroOnce] with the other timers as they are. *)
Lemma fire_repetition_running c macro speed mp k a s0 st :
  Running c macro speed mp k a s0 st ->
  exists T h,
    List.length T = List.length (timers s0) + a
    /\ Forall (fun t => Timer.id t < h) T
    /\ Forall (fun t => is_repetition c t = false) T
    /\ repetition_timer c st = Some h
    /\ fire_repetition c st
       = snd (playMacroOnce c (set_timers T (S h) st)).
Proof.
  intros (Hp & Hc & Hr & T & h & d & Ht & Hn & Hid & Hrep & Hlen).
  exists T, h.
  assert (Hfind : repetition_timer c st = Some h).
  { unfold repetition_timer. rewrite Ht.
    rewrite (find_last _ _ Hrep (is_repetition_self c h d)). reflexivity. }
  repeat split; try assumption.
  unfold fire_repetition. rewrite Hfind.
  unfold step, handle. rewrite snd_returning.
  unfold fire, bind at 1, get. rewrite Ht.
  assert (Hf : find_timer h (T ++ [Timer.mk h false d (PlayMacroOnce c)])
               = Some (Timer.mk h false d (PlayMacroOnce c))).
  { unfold find_timer. apply find_last; [|simpl; apply Nat.eqb_refl].
    eapply Forall_impl; [|exact Hid]. simpl. intros t Hlt.
    apply Nat.eqb_neq. lia. }
  rewrite Hf. simpl Timer.repeat. simpl negb. simpl when.
  unfold bind, clearInterval, modify. simpl run_callback.
  rewrite Ht, (cancel_last false d (PlayMacroOnce c) Hid), Hn.
  now destruct (playMacroOnce c _) as [[[]|e] s'].
Qed.

(** One more repetition. *)
Lemma Running_step c macro speed mp k a s0 st :
  Running c macro speed mp k a s0 st ->
  reached k mp = false ->
  Running c macro speed mp (k + 1) (a + List.length macro) s0
          (fire_repetition c st).
Proof.
  intros HR Hk.
  destruct (fire_repetition_running HR)
    as (T & h & Hlen & Hid & Hrep & _ & ->).
  destruct HR as (Hp & Hc & Hr & _).
  rewrite (@playMacroOnce_repetition (set_timers T (S h) st) c _ Hc Hp Hk).
  simpl. repeat split; try assumption.
  - simpl. now apply incr_playCount_nth.
  - exists (T ++ scheduled (100 / speed)%float 0 (S h) macro),
           (S h + List.length macro), (num_of_nat (List.length macro)
                                       * (100 / speed) + 100)%float.
    repeat split.
    + simpl. now rewrite app_assoc.
    + apply Forall_app. split.
      * eapply Forall_impl; [|exact Hid]. simpl. intros; lia.
      * apply scheduled_ids.
    + apply Forall_app. split; [exact Hrep | apply scheduled_actions].
    + rewrite length_app, scheduled_length. lia.
Qed.

(** The repetition that finds the play count reached. *)
Lemma Running_end c macro speed mp k a s0 st :
  Running c macro speed mp k a s0 st ->
  reached k mp = true ->
  let st' := fire_repetition c st in
  macroPlaying st' = false
  /\ repetition_timer c st' = None
  /\ playCount_of c st' = Some k
  /\ List.length (timers st') = List.length (timers s0) + a
  /\ robot st' = robot s0.
Proof.
  intros HR Hk st'. subst st'.
  destruct (fire_repetition_running HR)
    as (T & h & Hlen & Hid & Hrep & _ & ->).
  destruct HR as (Hp & Hc & Hr & _).
  rewrite (@playMacroOnce_terminates (set_timers T (S h) st) c _ Hc)
    by (simpl; rewrite Hk; reflexivity).
  simpl. repeat split; try assumption.
  - unfold repetition_timer. simpl. now rewrite (find_absent _ Hrep).
  - unfold playCount_of. simpl. now rewrite Hc.
Qed.

(** An accepted call whose play count allows a repetition is between
    repetitions when the handler returns. *)
Lemma Running_start s macro speed times :
  Inv s -> Closed s ->
  macroPlaying s = false ->
  reached 0 (maxPlays_of times) = false ->
  Running (List.length (closures s)) macro speed (maxPlays_of times) 1
          (List.length macro) s (snd (play_macro macro speed times s)).
Proof.
  intros (Hf & _) HC Hidle Hr.
  rewrite (play_macro_first_repetition s macro speed times Hidle Hr).
  repeat split.
  - simpl.
    apply (incr_playCount_nth _ _ (entered_closure s macro speed times)).
  - exists (timers s ++ scheduled (100 / speed)%float 0 (nextTimer s) macro),
           (nextTimer s + List.length macro),
           (num_of_nat (List.length macro) * (100 / speed) + 100)%float.
    repeat split.
    + simpl. now rewrite app_assoc.
    + apply Forall_app. split.
      * eapply Forall_impl; [|exact Hf]. simpl. intros; lia.
      * apply scheduled_ids.
    + apply Forall_app. split; [|apply scheduled_actions].
      eapply Forall_impl; [|exact HC]. intros t. unfold known_closure,
        is_repetition. destruct (Timer.callback t); auto.
      intros Hlt. apply Nat.eqb_neq. lia.
    + rewrite length_app, scheduled_length. reflexivity.
Qed.

Lemma Closed_exec disk evs : Closed (exec evs (init disk)).
Proof. apply exec_invariant; [exact Closed_handle | constructor]. Qed.

(** The run after [m] more repetitions, while the count allows them. *)
Lemma Running_iter c macro speed mp a s0 : forall m k st,
  Running c macro speed mp k a s0 st ->
  (forall j, (j < m)%nat -> reached (k + Z.of_nat j) mp = false) ->
  Running c macro speed mp (k + Z.of_nat m) (a + m * List.length macro) s0
          (Nat.iter m (fire_repetition c) st).
Proof.
  induction m as [|m IH]; intros k st HR Hlt.
  - simpl. now rewrite Z.add_0_r, Nat.add_0_r.
  - simpl Nat.iter.
    replace (k + Z.of_nat (S m))%Z with (k + Z.of_nat m + 1)%Z by lia.
    replace (a + S m * List.length macro)
      with (a + m * List.length macro + List.length macro) by lia.
    apply Running_step.
    + apply IH; [exact HR|]. intros j Hj. apply Hlt. lia.
    + apply Hlt. lia.
Qed.

Lemma Closed_no_repetition s :
  Closed s ->
  Forall (fun t => is_repetition (List.length (closures s)) t = false)
         (timers s).
Proof.
  intros HC. eapply Forall_impl; [|exact HC]. intros t.
  unfold known_closure, is_repetition. destruct (Timer.callback t); auto.
  intros Hlt. apply Nat.eqb_neq. lia.
Qed.

Lemma maxPlays_of_nat n : maxPlays_of (Z.of_nat n) = Some (Z.of_nat n).
Proof.
  unfold maxPlays_of. destruct (Z.eqb_spec (Z.of_nat n) (-1)); [lia|].
  reflexivity.
Qed.

Lemma Running_playing c macro speed mp k a s0 st :
  Running c macro speed mp k a s0 st ->
  macroPlaying st = true
  /\ playCount_of c st = Some k
  /\ exists h, repetition_timer c st = Some h.
Proof.
  intros HR. destruct (fire_repetition_running HR)
    as (T & h & _ & _ & _ & Hh & _).
  destruct HR as (Hp & Hc & _).
  repeat split; [exact Hp | unfold playCount_of; now rewrite Hc |].
  now exists h.
Qed.

(** X10: a call with [times = n >= 0], accepted in any state the engine can
    reach, runs exactly [n] repetitions when left alone: as its repetition
    timer comes due again and again the flag stays set for the first
    [n - 1] times, and the [n]-th time the play count is found reached, the
    flag is cleared and no repetition timer of the call remains; [n] times
    the macro's length action timers have been registered by then. *)
Theorem finite_run_ends
  (disk : Store) (evs : list Event) (macro : list Action.t) (speed : number)
  (n : nat) :
  let s := exec evs (init disk) in
  macroPlaying s = false ->
  let c := List.length (closures s) in
  let after m :=
    Nat.iter m (fire_repetition c)
             (snd (play_macro macro speed (Z.of_nat n) s)) in
  (forall m, m < n -> macroPlaying (after m) = true)
  /\ macroPlaying (after n) = false
  /\ repetition_timer c (after n) = None
  /\ playCount_of c (after n) = Some (Z.of_nat n)
  /\ List.length (timers (after n))
     = List.length (timers s) + n * List.length macro
  /\ robot (after n) = robot s.
Proof.
  intros s Hidle c after.
  pose proof (Inv_exec disk evs) as HI. fold s in HI.
  pose proof (Closed_exec disk evs) as HC. fold s in HC.
  destruct n as [|n].
  - split; [intros m Hm; lia|]. unfold after, c. simpl Nat.iter.
    change (Z.of_nat 0) with 0%Z.
    rewrite play_macro_idle by exact Hidle.
    rewrite (playMacroOnce_terminates _ _ (entered_closure s macro speed 0))
      by reflexivity.
    simpl. repeat split.
    + unfold repetition_timer. simpl.
      now rewrite (find_absent _ (Closed_no_repetition HC)).
    + unfold playCount_of. simpl.
      rewrite nth_error_app2 by lia. now rewrite Nat.sub_diag.
    + lia.
  - assert (Hr : reached 0 (maxPlays_of (Z.of_nat (S n))) = false).
    { rewrite maxPlays_of_nat. unfold reached. apply Z.leb_gt. lia. }
    pose proof (Running_start macro speed (Z.of_nat (S n)) HI HC Hidle Hr)
      as HR0.
    fold c in HR0. rewrite maxPlays_of_nat in HR0.
    assert (Hiter : forall m, m <= n ->
              Running c macro speed (Some (Z.of_nat (S n)))
                      (1 + Z.of_nat m)
                      (List.length macro + m * List.length macro) s
                      (after m)).
    { intros m Hm. apply Running_iter; [exact HR0|].
      intros j Hj. unfold reached. apply Z.leb_gt. lia. }
    split.
    + intros m Hm. apply (Running_playing (Hiter m ltac:(lia))).
    + change (after (S n)) with (fire_repetition c (after n)).
      destruct (@Running_end c macro speed (Some (Z.of_nat (S n)))
                  (1 + Z.of_nat n)
                  (List.length macro + n * List.length macro) s
                  (after n) (Hiter n (le_n n)))
        as (H1 & H2 & H3 & H4 & H5).
      { unfold reached. apply Z.leb_le. lia. }
      repeat split; try assumption.
      rewrite H3. f_equal. lia.
Qed.

(** X11: a call with [times = -1], accepted in any state the engine can
    reach and then left alone (only its own repetition timer coming due),
    is never ended by its play count: however often that timer comes due,
    the flag is still set, one more repetition has begun and the next one
    is pending. *)
Theorem endless_run_keeps_going
  (disk : Store) (evs : list Event) (macro : list Action.t) (speed : number)
  (m : nat) :
  let s := exec evs (init disk) in
  macroPlaying s = false ->
  let c := List.length (closures s) in
  let s' :=
    Nat.iter m (fire_repetition c) (snd (play_macro macro speed (-1) s)) in
  macroPlaying s' = true
  /\ playCount_of c s' = Some (1 + Z.of_nat m)%Z
  /\ exists h, repetition_timer c s' = Some h.
Proof.
  intros s Hidle c s'.
  pose proof (Inv_exec disk evs) as HI. fold s in HI.
  pose proof (Closed_exec disk evs) as HC. fold s in HC.
  pose proof (Running_start macro speed (-1) HI HC Hidle eq_refl) as HR0.
  fold c in HR0.
  apply (@Running_playing c macro speed (maxPlays_of (-1))
           (1 + Z.of_nat m) (List.length macro + m * List.length macro) s).
  apply Running_iter; [exact HR0 | reflexivity].
Qed.

(** ** After a stop *)

Lemma one_shots_cancel_incl h l L :
  incl (filter (fun t => negb (Timer.repeat t)) l) L ->
  incl (filter (fun t => negb (Timer.repeat t)) (cancel h l)) L.
Proof.
  intros H t Ht. apply H. apply filter_In in Ht as [Ht Hr].
  apply filter_In. split; [eapply cancel_In, Ht | exact Hr].
Qed.

Lemma Quiescent_cancel s0 h s :
  Quiescent s0 s ->
  Quiescent s0 (set_timers (cancel h (timers s)) (nextTimer s) s).
Proof.
  intros (Hp & Hc & Hi). repeat split; try assumption.
  unfold one_shots. simpl. now apply one_shots_cancel_incl.
Qed.

Lemma Quiescent_interval s0 d cb s :
  Quiescent s0 s ->
  Quiescent s0 (set_timers (timers s ++ [Timer.mk (nextTimer s) true d cb])
                           (S (nextTimer s)) s).
Proof.
  intros (Hp & Hc & Hi). repeat split; try assumption.
  unfold one_shots. simpl. rewrite filter_app. simpl.
  now rewrite app_nil_r.
Qed.

Lemma Quiescent_playMacroOnce s0 c : preserves (Quiescent s0) (playMacroOnce c).
Proof.
  intros s (Hp & Hc & Hi). unfold playMacroOnce, bind, get.
  destruct (nth_error (closures s) c); [|now repeat split].
  rewrite Hp, orb_true_r. now repeat split.
Qed.

Lemma Quiescent_handle s0 e :
  is_play_macro e = false -> preserves (Quiescent s0) (handle e).
Proof.
  intros He. destruct e; try discriminate;
    unfold handle, returning, get_settings, save_settings, start_auto_clicker,
      stop_auto_clicker, start_macro_recording, stop_macro_recording,
      stop_macro, keyListener, fire, run_callback, dispatch_action,
      toggleAutoClicker, stopAutoClicker, toggleMacroRecording, playMacro,
      toLowerCase, setInterval, clearInterval, robot_call,
      webContents_send, store_get_settings, store_get_lastMacro,
      store_set_settings, store_set_lastMacro;
    repeat first
      [ apply Quiescent_playMacroOnce
      | apply preserves_ret
      | apply preserves_throw
      | apply preserves_get
      | apply preserves_modify; intros ? ?;
        first [ assumption
              | apply Quiescent_cancel; assumption
              | match goal with
                | H : Quiescent _ _ |- _ =>
                    destruct H as (? & ? & ?); repeat split; assumption
                end ]
      | apply preserves_register; intros ? ?;
        apply Quiescent_interval; assumption
      | apply preserves_when
      | apply preserves_bind; [|intros]
      | match goal with
        | |- preserves _ (if ?b then _ else _) => destruct b
        | |- preserves _ (match ?o with _ => _ end) => destruct o
        end ].
Qed.

Lemma Quiescent_exec s0 evs : forall s,
  forallb (fun e => negb (is_play_macro e)) evs = true ->
  Quiescent s0 s -> Quiescent s0 (exec evs s).
Proof.
  induction evs as [|e r IH]; intros s Hev HQ; simpl in *; [exact HQ|].
  apply andb_prop in Hev as [He Hr]. apply negb_true_iff in He.
  apply IH; [exact Hr|]. unfold step. now apply Quiescent_handle.
Qed.

(** X12: after ['stop-macro'], as long as ['play-macro'] is not called,
    whatever else happens (timers coming due, keys, the other handlers) the
    flag stays clear, no closure's play count moves and no playback timer
    is registered: the pending ones can only fire and go. *)
Theorem after_stop_nothing_begins (s : State) (evs : list Event) :
  forallb (fun e => negb (is_play_macro e)) evs = true ->
  let s' := exec evs (snd (stop_macro s)) in
  macroPlaying s' = false
  /\ closures s' = closures s
  /\ incl (one_shots s') (one_shots s).
Proof.
  intros Hev. apply (@Quiescent_exec s evs _ Hev).
  repeat split. apply incl_refl.
Qed.

(** ** What the renderer's calls do not do *)

(** X13: no call from the renderer reaches robotjs directly: every
    synthetic click, move or key comes from a timer callback or from the
    key listener. In particular ['play-macro'] returns before its first
    action is dispatched. *)
Theorem ipc_never_calls_robot (e : Event) (s : State) :
  is_ipc e = true -> robot (step e s) = robot s.
Proof.
  intros He.
  assert (H : preserves (fun st => robot st = robot s) (handle e))
    by (destruct e; try discriminate; unfold_handlers; walk).
  exact (H s eq_refl).
Qed.

(** ** The stored macro *)

Lemma Unrecorded_stop_macro_recording :
  preserves Unrecorded stop_macro_recording.
Proof.
  intros s [Hm Hl]. rewrite stop_macro_recording_eq. simpl.
  split; [exact Hm|]. simpl. now rewrite Hm.
Qed.

Lemma Unrecorded_handle e : preserves Unrecorded (handle e).
Proof.
  destruct e;
    unfold handle, returning, get_settings, save_settings,
      start_auto_clicker, stop_auto_clicker, start_macro_recording,
      play_macro, stop_macro, keyListener, fire, run_callback,
      playMacroOnce, forEach, dispatch_action, toggleAutoClicker,
      stopAutoClicker, toggleMacroRecording, playMacro, toLowerCase,
      setTimeout, setInterval, clearInterval, robot_call,
      webContents_send, store_get_settings, store_get_lastMacro,
      store_set_settings;
    repeat first
      [ apply Unrecorded_stop_macro_recording
      | apply preserves_ret
      | apply preserves_throw
      | apply preserves_get
      | apply preserves_modify; intros ? ?;
        first [ assumption
              | match goal with
                | H : Unrecorded _ |- _ =>
                    destruct H; split; [reflexivity | assumption]
                end ]
      | apply preserves_register; intros ? ?; assumption
      | apply preserves_when
      | apply preserves_forEach_from; intros
      | apply preserves_bind; [|intros]
      | match goal with
        | |- preserves _ (if ?b then _ else _) => destruct b
        | |- preserves _ (match ?o with _ => _ end) => destruct o
        end ].
Qed.

Lemma exec_app evs1 evs2 s : exec (evs1 ++ evs2) s = exec evs2 (exec evs1 s).
Proof. apply fold_left_app. Qed.

(** X14: once ['stop-macro-recording'] has been called, the stored macro is
    the empty one for the rest of the session, whatever the disk held and
    whatever happens next; [playMacro], which the playback hotkey runs,
    then sends nothing and changes nothing. *)
Theorem playback_hotkey_dead_after_stop_recording
  (disk : Store) (evs1 evs2 : list Event) :
  let s := exec (evs1 ++ Ipc_stop_macro_recording :: evs2) (init disk) in
  lastMacro (store s) = Some []
  /\ playMacro s = (Normal tt, s).
Proof.
  intros s.
  assert (H : Unrecorded s).
  { unfold s. rewrite exec_app. simpl.
    apply exec_invariant; [exact Unrecorded_handle|].
    unfold step, handle. rewrite snd_returning, stop_macro_recording_eq.
    simpl. split; simpl; now rewrite macroRecording_exec. }
  destruct H as [_ Hl]. split; [exact Hl|].
  unfold playMacro, bind, store_get_lastMacro, bind, get, ret.
  now rewrite Hl.
Qed.

(** ** The application shell *)

Lemma isAppQuitting_step e a :
  isAppQuitting (app_step e a) = isAppQuitting a || quits e.
Proof.
  destruct e; simpl; rewrite ?orb_false_r, ?orb_true_r; try reflexivity.
  - unfold window_close. destruct (isAppQuitting a) eqn:E; simpl; auto.
  - unfold app_activate. now destruct (Nat.eqb windows 0).
  - unfold before_quit. simpl. now destruct (keyListener_set a).
Qed.

Lemma isAppQuitting_exec evs : forall a,
  isAppQuitting (app_exec evs a) = isAppQuitting a || existsb quits evs.
Proof.
  induction evs as [|e r IH]; intros a; simpl.
  - now rewrite orb_false_r.
  - rewrite IH, isAppQuitting_step. now rewrite orb_assoc.
Qed.

(** X15: [isAppQuitting] is set by the tray's Quit item and by
    ['before-quit'] and never cleared. So after any run of events, closing
    the window is intercepted (the default prevented, the window hidden)
    exactly when neither has happened yet; once one has, the ['close']
    handler does nothing. Either way it leaves the engine alone. *)
Theorem close_hides_until_quit (disk : Store) (evs : list AppEvent) :
  let a := app_exec evs (app_init disk) in
  isAppQuitting a = existsb quits evs
  /\ shell (window_close a)
     = shell a ++ (if existsb quits evs then []
                   else [event_preventDefault; mainWindow_hide])
  /\ engine (window_close a) = engine a
  /\ isAppQuitting (window_close a) = isAppQuitting a.
Proof.
  intros a. assert (H : isAppQuitting a = existsb quits evs)
    by apply (isAppQuitting_exec evs (app_init disk)).
  split; [exact H|]. rewrite <- H. unfold window_close.
  destruct (isAppQuitting a) eqn:E; simpl; repeat split; auto.
  now rewrite app_nil_r.
Qed.

(** What the engine's events and [stopAutoClicker] preserve holds of the
    engine after every run of application events. *)
Lemma app_exec_invariant (P : State -> Prop) :
  (forall e, preserves P (handle e)) ->
  preserves P stopAutoClicker ->
  forall evs a, P (engine a) -> P (engine (app_exec evs a)).
Proof.
  intros He Hs evs. induction evs as [|e r IH]; intros a Ha; simpl.
  - exact Ha.
  - apply IH. destruct e; simpl; try exact Ha.
    + apply He, Ha.
    + unfold window_close. now destruct (negb (isAppQuitting a)).
    + unfold app_activate. now destruct (Nat.eqb windows 0).
    + unfold before_quit. simpl.
      destruct (keyListener_set a); simpl; apply Hs, Ha.
Qed.

(** X16: ['before-quit'], after any run of application events, cancels the
    auto-clicker's timer and no other: no repeating timer is left, while
    every pending playback timer and the playback flag stay as they were;
    the key listener is killed when it had been set up. *)
Theorem before_quit_stops_only_the_clicker
  (disk : Store) (evs : list AppEvent) :
  let a := app_exec evs (app_init disk) in
  let a' := before_quit a in
  isAppQuitting a' = true
  /\ intervals (engine a') = []
  /\ autoClickerInterval (engine a') = None
  /\ one_shots (engine a') = one_shots (engine a)
  /\ macroPlaying (engine a') = macroPlaying (engine a)
  /\ shell a'
     = shell a ++ (if keyListener_set a then [keyListener_kill] else []).
Proof.
  intros a a'.
  assert (HI : Inv (engine a)).
  { apply app_exec_invariant;
      [exact Inv_handle | exact Inv_stopAutoClicker | apply Inv_init]. }
  destruct (Inv_stopped HI) as (_ & Hnil & Hnone).
  pose proof (one_shots_stopped HI) as Hone.
  assert (Hm : macroPlaying (stopped (engine a)) = macroPlaying (engine a))
    by (unfold stopped; destruct (autoClickerInterval (engine a));
        reflexivity).
  subst a'. unfold before_quit. simpl. rewrite stopAutoClicker_eq. simpl.
  destruct (keyListener_set a); simpl; rewrite ?app_nil_r; repeat split;
    assumption.
Qed.

(** ** Instances of the further properties *)

Lemma unsaved_settings_hotkey_inert_at_idle :
  fst (get_settings idle) = Normal default_settings
  /\ fst (keyListener "F" DOWN idle) = Normal tt
  /\ robot (snd (keyListener "F" DOWN idle)) = []
  /\ hotkeyPressed (snd (keyListener "F" DOWN idle)) = false.
Proof.
  exact (@unsaved_settings_hotkey_inert idle "F" DOWN eq_refl).
Defined.

Lemma unbound_hotkey_hold_throws_on_release :
  fst (keyListener "F" UP (unbound "hold")) = Throw "TypeError"
  /\ robot (snd (keyListener "F" UP (unbound "hold"))) = []
  /\ hotkeyPressed (snd (keyListener "F" UP (unbound "hold"))) = false.
Proof.
  exact (@unbound_hotkey_hold_throws (unbound "hold") _ UP
           eq_refl eq_refl eq_refl).
Defined.

Lemma only_save_settings_writes_settings_during_playback :
  let evs := [Ipc_play_macro [click_10_20] 1%float 1; TimerFires 0;
              Key "F1" DOWN; Ipc_stop_macro_recording; Ipc_get_settings] in
  settings (store (exec evs (bound_F "toggle")))
  = settings (store (bound_F "toggle"))
  /\ fst (get_settings (exec evs (bound_F "toggle")))
     = fst (get_settings (bound_F "toggle"))
  /\ snd (get_settings (bound_F "toggle")) = bound_F "toggle".
Proof.
  exact (@only_save_settings_writes_settings
           [Ipc_play_macro [click_10_20] 1%float 1; TimerFires 0;
            Key "F1" DOWN; Ipc_stop_macro_recording; Ipc_get_settings]
           (bound_F "toggle") eq_refl).
Defined.

Lemma unbound_hotkey_flips_then_throws_at_start :
  fst (keyListener "F" DOWN (unbound "toggle")) = Throw "TypeError"
  /\ hotkeyPressed (snd (keyListener "F" DOWN (unbound "toggle"))) = true
  /\ robot (snd (keyListener "F" DOWN (unbound "toggle"))) = [].
Proof.
  exact (@unbound_hotkey_flips_then_throws (unbound "toggle") _
           eq_refl eq_refl eq_refl).
Defined.

Lemma toggle_mode_two_presses_of_F :
  let s' := exec [Key "F" DOWN; Key "F" UP; Key "F" DOWN; Key "F" UP]
                 (bound_F "toggle") in
  hotkeyPressed s' = false
  /\ robot s' = [keyToggle "f" "down"; keyToggle "f" "up"].
Proof.
  assert (Hne : "F"%string <> ""%string) by discriminate.
  exact (@toggle_mode_two_presses (bound_F "toggle") _ "F"
           eq_refl eq_refl Hne eq_refl).
Defined.

Lemma hotkey_interval_falls_back_to_100_for_speed_0 :
  intervals (snd (toggleAutoClicker (init zero_speed_disk)))
  = [Timer.mk 0 true 100%float Click]
  /\ intervals (snd (start_auto_clicker 0%float (init zero_speed_disk)))
     = [Timer.mk 0 true 0%float ClickAtPointer].
Proof.
  destruct (@hotkey_interval_falls_back_to_100 zero_speed_disk [] eq_refl)
    as [Htoggle Hstart].
  exact (conj Htoggle (Hstart 0%float)).
Defined.

Lemma auto_clicker_tick_at_50ms :
  robot (exec [Ipc_start_auto_clicker 50%float; Key "q" DOWN; TimerFires 0]
              idle)
  = [getMousePos; mouseClick "left"]
  /\ robot (step (TimerFires 0) (snd (toggleAutoClicker idle)))
     = [mouseClick "left"].
Proof.
  destruct (@auto_clicker_tick empty_disk [] [Key "q" DOWN] 50%float)
    as [Hstart _].
  destruct (@auto_clicker_tick empty_disk [] [] 50%float) as [_ Htoggle].
  exact (conj (proj1 (Hstart eq_refl)) (proj1 (Htoggle eq_refl eq_refl))).
Defined.

Lemma finite_run_ends_after_two :
  let after m :=
    Nat.iter m (fire_repetition 0)
             (snd (play_macro [click_10_20; tap_q] 2%float 2 idle)) in
  macroPlaying (after 1) = true
  /\ macroPlaying (after 2) = false
  /\ repetition_timer 0 (after 2) = None
  /\ playCount_of 0 (after 2) = Some 2%Z
  /\ List.length (timers (after 2)) = 4.
Proof.
  destruct (@finite_run_ends empty_disk [] [click_10_20; tap_q] 2%float 2
              eq_refl) as (H1 & H2 & H3 & H4 & H5 & _).
  exact (conj (H1 1 (le_n 2)) (conj H2 (conj H3 (conj H4 H5)))).
Defined.

Lemma endless_run_keeps_going_after_three :
  let s' :=
    Nat.iter 3 (fire_repetition 0)
             (snd (play_macro [tap_q] 1%float (-1) idle)) in
  macroPlaying s' = true
  /\ playCount_of 0 s' = Some 4%Z
  /\ exists h, repetition_timer 0 s' = Some h.
Proof.
  exact (@endless_run_keeps_going empty_disk [] [tap_q] 1%float 3 eq_refl).
Defined.

Lemma after_stop_nothing_begins_when_timers_fire :
  let s := exec [Ipc_play_macro [click_10_20] 1%float (-1)] idle in
  let s' := exec [TimerFires 0; TimerFires 1; Key "F1" DOWN]
                 (snd (stop_macro s)) in
  macroPlaying s' = false
  /\ closures s' = closures s
  /\ incl (one_shots s') (one_shots s).
Proof.
  exact (@after_stop_nothing_begins
           (exec [Ipc_play_macro [click_10_20] 1%float (-1)] idle)
           [TimerFires 0; TimerFires 1; Key "F1" DOWN] eq_refl).
Defined.

Lemma ipc_never_calls_robot_on_play :
  robot (step (Ipc_play_macro [click_10_20] 1%float 1) idle) = [].
Proof.
  exact (@ipc_never_calls_robot (Ipc_play_macro [click_10_20] 1%float 1) idle
           eq_refl).
Defined.
